(** * simpleConnPool: a bounded connection pool (Go)

    A shallow embedding of [simple_pool.go] and [error.go], and the
    properties of [NewPool], [Get] (Acquire), [Put] (Release) and [Close]
    (Discard) that the specification states about them.

    Layout:
    - values, errors, 32-bit counters, channels, the pool record;
    - the three methods and the constructor as functions that run a
      goroutine up to its next blocking channel operation;
    - goroutines and their interleaving as a step relation;
    - the statements of the specification and the theorems. *)

From Stdlib Require Import ZArith Lia Bool.
From stdpp Require Import base list strings relations.

Local Open Scope Z_scope.

(** ** Values *)

(** Go's [any].  The pool never inspects a connection; the only values it
    tells apart are [nil] and the [*idleConn] it allocates itself.  Both
    [idleConn.connection] and the results of [Get] are of type [any], so a
    [*idleConn] can travel wherever a connection can. *)
Inductive any : Type :=
| Nil                      (* the nil interface *)
| Res (id : nat)           (* a value made by the caller's code *)
| Ptr (e : idleConn)       (* a non-nil *idleConn *)
with idleConn : Type :=
| mkIdleConn (connection : any) (lastActiveTime : Z).

Definition connection (e : idleConn) : any :=
  match e with mkIdleConn c _ => c end.

Definition lastActiveTime (e : idleConn) : Z :=
  match e with mkIdleConn _ t => t end.

Definition is_nil (v : any) : bool :=
  match v with Nil => true | _ => false end.

(** ** error.go *)

(** The seven package-level error values, and [Foreign] for the errors that
    the caller's Factory and Close functions make. *)
Inductive error : Type :=
| PoolClosed
| GetConnectionTimeout
| ConnectionIsNull
| InvalidCapSet
| InvalidFactorySet
| InvalidCloseSet
| InitPoolErr
| Foreign (msg : string).

(** The [var ( ... )] block of error.go, in order. *)
Definition package_errors : list error :=
  [PoolClosed; GetConnectionTimeout; ConnectionIsNull; InvalidCapSet;
   InvalidFactorySet; InvalidCloseSet; InitPoolErr].

(** ** int32 and sync/atomic *)

Definition wrap32 (z : Z) : Z := (z + 2 ^ 31) mod 2 ^ 32 - 2 ^ 31.

(** [atomic.AddInt32(&x, d)]: the new value, which is also what is stored. *)
Definition AddInt32 (x d : Z) : Z := wrap32 (x + d).

Definition int32 (z : Z) : Prop := - 2 ^ 31 <= z < 2 ^ 31.

(** ** time *)

(** Instants and durations in nanoseconds. *)
Record Ticker : Type := mkTicker { started : Z; period : Z }.

(** [time.NewTicker(d)] panics when [d <= 0] (package time: "The duration d
    must be greater than zero; if not, NewTicker will panic"). [None] is
    that panic. *)
Definition NewTicker (d : Z) (now : Z) : option Ticker :=
  if d <=? 0 then None else Some (mkTicker now d).

(** A value is ready on [ticker.C] once one period has gone by. *)
Definition fired (tk : Ticker) (now : Z) : bool :=
  started tk + period tk <=? now.

(** ** Channels *)

(** A channel of capacity [cap].  [buf] is what a receiver sees, oldest
    first: the buffered elements followed by the elements of the senders
    parked on the channel (Go serves parked senders first-come first-served
    behind the buffer, and with [cap = 0] hands a parked sender's element
    straight to the receiver).  So the elements at positions [>= cap] belong
    to goroutines still blocked in their send. *)
Record chan (A : Type) : Type := mkChan {
  buf : list A;
  cap : Z;
  is_closed : bool
}.
Arguments mkChan {A}.
Arguments buf {A}.
Arguments cap {A}.
Arguments is_closed {A}.

Definition make {A} (n : Z) : chan A := mkChan [] n false.

Definition with_buf {A} (ch : chan A) (l : list A) : chan A :=
  mkChan l (cap ch) (is_closed ch).

(** Is there room for a send that does not block? *)
Definition has_room {A} (ch : chan A) : bool :=
  Z.of_nat (length (buf ch)) <? cap ch.

(** ** The pool *)

(** A request of a waiting [Get].  [idleConn: make(chan any)] is an
    unbuffered channel of its own; it is named by a number. *)
Record connReq : Type := mkConnReq {
  abandon : bool;
  req_idleConn : nat
}.

(** The caller's functions.  A Factory is given by what its k-th call
    returns, a Close by what it returns for each value. *)
Definition FactoryFn : Type := nat -> any * option error.
Definition CloseFn : Type := any -> option error.

Record Config : Type := mkConfig {
  InitialCap : Z;
  MaxCap : Z;
  MaxIdle : Z;
  Factory : option FactoryFn;
  CloseF : option CloseFn;
  IdleTimeout : Z;
  WaitTimeout : Z;
  WaitQueue : Z
}.

Record connectionPool : Type := mkPool {
  idleQueue : chan idleConn;
  factory : option FactoryFn;
  close : option CloseFn;
  reqQueue : chan connReq;
  idleTimeOut : Z;
  waitTimeOut : Z;
  maxActiveConn : Z;
  openingConn : Z
}.

Definition set_idleQueue (c : connectionPool) (q : chan idleConn) : connectionPool :=
  mkPool q (factory c) (close c) (reqQueue c) (idleTimeOut c) (waitTimeOut c)
         (maxActiveConn c) (openingConn c).

Definition set_reqQueue (c : connectionPool) (q : chan connReq) : connectionPool :=
  mkPool (idleQueue c) (factory c) (close c) q (idleTimeOut c) (waitTimeOut c)
         (maxActiveConn c) (openingConn c).

Definition set_openingConn (c : connectionPool) (n : Z) : connectionPool :=
  mkPool (idleQueue c) (factory c) (close c) (reqQueue c) (idleTimeOut c)
         (waitTimeOut c) (maxActiveConn c) n.

(** What lies outside the pool: the clock, how often Factory has been
    called, the arguments Close has been called with (latest first), and
    the number of hand-off channels made so far. *)
Record World : Type := mkWorld {
  clock : Z;
  factory_calls : nat;
  close_calls : list any;
  next_chan : nat
}.

Definition called_factory (w : World) : World :=
  mkWorld (clock w) (S (factory_calls w)) (close_calls w) (next_chan w).

Definition called_close (w : World) (v : any) : World :=
  mkWorld (clock w) (factory_calls w) (v :: close_calls w) (next_chan w).

Definition made_chan (w : World) : World :=
  mkWorld (clock w) (factory_calls w) (close_calls w) (S (next_chan w)).

Definition advance (w : World) (d : Z) : World :=
  mkWorld (clock w + d) (factory_calls w) (close_calls w) (next_chan w).

(** ** Close (simple_pool.go, 166-173) *)

Definition Close (c : connectionPool) (w : World) (conn : any)
  : option error * connectionPool * World :=
  match close c with
  | None => (None, c, w)
  | Some f =>
      (f conn,
       set_openingConn c (AddInt32 (openingConn c) (-1)),
       called_close w conn)
  end.

(** ** Get (simple_pool.go, 84-130) *)

(** How a call of [Get] goes on until it returns, parks or panics. *)
Inductive GetResult : Type :=
| GetReturn (v : any) (err : option error) (c : connectionPool) (w : World)
| GetPark (req : connReq) (ticker : Ticker) (c : connectionPool) (w : World)
| GetPanic.

(** Line 92: [time.Now().Sub(idleC.lastActiveTime) > c.idleTimeOut]. *)
Definition timed_out (c : connectionPool) (w : World) (idleC : idleConn) : bool :=
  idleTimeOut c <? clock w - lastActiveTime idleC.

(** The [default:] branch of the outer select, lines 101-126, up to the
    send of line 117. *)
Definition Get_default (c : connectionPool) (w : World) : GetResult :=
  let n := AddInt32 (openingConn c) 1 in
  let c1 := set_openingConn c n in
  if n <? maxActiveConn c then
    match factory c with
    | None => GetPanic
    | Some f =>
        let '(v, err) := f (factory_calls w) in
        GetReturn v err c1 (called_factory w)
    end
  else
    let c2 := set_openingConn c1 (AddInt32 n (-1)) in
    let req := mkConnReq false (next_chan w) in
    let w2 := made_chan w in
    match NewTicker (waitTimeOut c) (clock w) with
    | None => GetPanic
    | Some ticker =>
        if is_closed (reqQueue c) then GetPanic
        else
          GetPark req ticker
            (set_reqQueue c2 (with_buf (reqQueue c) (buf (reqQueue c) ++ [req])))
            w2
    end.

(** The [for { select { ... } }] of lines 85-128.  The loop goes round
    again only after it has received an entry, so it is a recursion on what
    is left in [idleQueue]. *)
Fixpoint Get_loop (q : list idleConn) (c : connectionPool) (w : World) : GetResult :=
  match q with
  | idleC :: q' =>
      let c1 := set_idleQueue c (with_buf (idleQueue c) q') in
      if (0 <? idleTimeOut c) && timed_out c w idleC then
        let '(_, c2, w2) := Close c1 w (Ptr idleC) in
        Get_loop q' c2 w2
      else GetReturn (Ptr idleC) None c1 w
  | [] =>
      if is_closed (idleQueue c) then GetReturn Nil (Some PoolClosed) c w
      else Get_default c w
  end.

Definition Get (c : connectionPool) (w : World) : GetResult :=
  Get_loop (buf (idleQueue c)) c w.

(** ** Put (simple_pool.go, 133-163) *)

Inductive PutResult : Type :=
| PutReturn (err : option error) (c : connectionPool) (w : World)
| PutPark (req : connReq) (conn : any) (c : connectionPool) (w : World)
| PutPanic.

(** The [default:] branch of line 148. *)
Definition Put_default (c : connectionPool) (w : World) (conn : any) : PutResult :=
  if is_closed (idleQueue c) then PutPanic
  else if has_room (idleQueue c) then
    PutReturn None
      (set_idleQueue c
         (with_buf (idleQueue c)
            (buf (idleQueue c) ++ [mkIdleConn conn (clock w)])))
      w
  else
    let c1 := set_openingConn c (AddInt32 (openingConn c) (-1)) in
    let '(err, c2, w2) := Close c1 w conn in
    PutReturn err c2 w2.

(** [Try:] with its [goto Try], a recursion on what is left in [reqQueue]. *)
Fixpoint Put_try (q : list connReq) (c : connectionPool) (w : World) (conn : any)
  : PutResult :=
  match q with
  | req :: q' =>
      let c1 := set_reqQueue c (with_buf (reqQueue c) q') in
      if abandon req then Put_try q' c1 w conn
      else PutPark req conn c1 w
  | [] =>
      if is_closed (reqQueue c) then PutReturn (Some PoolClosed) c w
      else Put_default c w conn
  end.

Definition Put (c : connectionPool) (w : World) (conn : any) : PutResult :=
  if is_nil conn then PutReturn (Some ConnectionIsNull) c w
  else Put_try (buf (reqQueue c)) c w conn.

(** ** NewPool (simple_pool.go, 48-81) *)

Inductive NewPoolResult : Type :=
| NewPoolOk (c : connectionPool) (w : World)
| NewPoolErr (err : error) (w : World)
| NewPoolStuck           (* a send into a full idleQueue: nobody receives *)
| NewPoolPanic.          (* make(chan, n) with n < 0 *)

(** The warm-up loop of lines 70-79, [n] iterations to go. *)
Fixpoint warm_up (n : nat) (f : FactoryFn) (c : connectionPool) (w : World)
  : NewPoolResult :=
  match n with
  | O => NewPoolOk c w
  | S n' =>
      let '(conn, err) := f (factory_calls w) in
      let w1 := called_factory w in
      match err with
      | Some _ => NewPoolErr InitPoolErr w1
      | None =>
          if has_room (idleQueue c) then
            warm_up n' f
              (set_idleQueue c
                 (with_buf (idleQueue c)
                    (buf (idleQueue c) ++ [mkIdleConn conn (clock w1)])))
              w1
          else NewPoolStuck
      end
  end.

Definition NewPool (poolConfig : Config) (w : World) : NewPoolResult :=
  if negb ((InitialCap poolConfig <=? MaxIdle poolConfig)
           && (MaxIdle poolConfig <=? MaxCap poolConfig)
           && (0 <=? InitialCap poolConfig))
  then NewPoolErr InvalidCapSet w
  else
    match Factory poolConfig with
    | None => NewPoolErr InvalidFactorySet w
    | Some f =>
        match CloseF poolConfig with
        | None => NewPoolErr InvalidCloseSet w
        | Some cl =>
            if (MaxIdle poolConfig <? 0) || (WaitQueue poolConfig <? 0)
            then NewPoolPanic
            else
              warm_up (Z.to_nat (InitialCap poolConfig)) f
                (mkPool (make (MaxIdle poolConfig)) (Some f) (Some cl)
                   (make (WaitQueue poolConfig))
                   (IdleTimeout poolConfig) (WaitTimeout poolConfig)
                   (MaxCap poolConfig) (InitialCap poolConfig))
                w
        end
    end.

(** ** Goroutines *)

(** Where a goroutine that calls the pool stands.  [GetWait] is the nested
    select of lines 115-126: first the send of [req] into [reqQueue], then
    the wait for the hand-off or for the ticker.  [PutSend] is the send of
    line 147. *)
Inductive goroutine : Type :=
| GetCall
| GetWait (req : connReq) (ticker : Ticker)
| GetDone (v : any) (err : option error)
| PutCall (conn : any)
| PutSend (req : connReq) (conn : any)
| PutDone (err : option error)
| Panicked.

Record System : Type := mkSystem {
  pool : connectionPool;
  world : World;
  threads : list goroutine
}.

(** Is the goroutine that made hand-off channel [ch] still blocked in its
    send into [q]?  It is while its request stands behind the buffer. *)
Definition in_send (q : chan connReq) (ch : nat) : bool :=
  existsb (fun r => Nat.eqb (req_idleConn r) ch)
          (drop (Z.to_nat (cap q)) (buf q)).

(** Goroutine [i] runs from the start of its call to where it returns,
    parks or panics. *)
Definition run (s : System) (i : nat) : option System :=
  match threads s !! i with
  | Some GetCall =>
      Some match Get (pool s) (world s) with
           | GetReturn v err c w => mkSystem c w (<[i := GetDone v err]> (threads s))
           | GetPark req tk c w => mkSystem c w (<[i := GetWait req tk]> (threads s))
           | GetPanic => mkSystem (pool s) (world s) (<[i := Panicked]> (threads s))
           end
  | Some (PutCall conn) =>
      Some match Put (pool s) (world s) conn with
           | PutReturn err c w => mkSystem c w (<[i := PutDone err]> (threads s))
           | PutPark req v c w => mkSystem c w (<[i := PutSend req v]> (threads s))
           | PutPanic => mkSystem (pool s) (world s) (<[i := Panicked]> (threads s))
           end
  | _ => None
  end.

(** Lines 121-124: the ticker case of the inner select.  Line 123 sets
    [abandon] in [req], the variable of this call; what was sent at line 117
    is a copy of the struct, which the assignment does not reach. *)
Definition timeout (s : System) (j : nat) : option System :=
  match threads s !! j with
  | Some (GetWait req tk) =>
      if fired tk (clock (world s))
         && negb (in_send (reqQueue (pool s)) (req_idleConn req))
      then
        let req := mkConnReq true (req_idleConn req) in
        Some (mkSystem (pool s) (world s)
                (<[j := GetDone Nil (Some GetConnectionTimeout)]> (threads s)))
      else None
  | _ => None
  end.

(** Lines 147 and 119-120: the send of goroutine [i] meets the receive of
    goroutine [j] on the same unbuffered channel. *)
Definition handoff (s : System) (i j : nat) : option System :=
  match threads s !! i, threads s !! j with
  | Some (PutSend req conn), Some (GetWait req' tk) =>
      if Nat.eqb (req_idleConn req) (req_idleConn req')
         && negb (in_send (reqQueue (pool s)) (req_idleConn req'))
      then
        Some (mkSystem (pool s) (world s)
                (<[i := PutDone None]> (<[j := GetDone conn None]> (threads s))))
      else None
  | _, _ => None
  end.

Definition tick (s : System) (d : Z) : System :=
  mkSystem (pool s) (advance (world s) d) (threads s).

Definition go (s : System) (g : goroutine) : System :=
  mkSystem (pool s) (world s) (threads s ++ [g]).

Definition is_call (g : goroutine) : bool :=
  match g with GetCall | PutCall _ => true | _ => false end.

(** One step of the program: a goroutine runs, a ticker fires, a hand-off
    takes place, time goes by, or the caller starts another call. *)
Inductive step : System -> System -> Prop :=
| step_run s i s' : run s i = Some s' -> step s s'
| step_timeout s j s' : timeout s j = Some s' -> step s s'
| step_handoff s i j s' : handoff s i j = Some s' -> step s s'
| step_tick s d : 0 < d -> step s (tick s d)
| step_go s g : is_call g = true -> step s (go s g).

(** Runs of the program. *)
Definition steps : System -> System -> Prop := rtc step.

(** ** Schedules *)

(** The steps as moves that can be carried out one after the other. *)
Inductive move : Type :=
| MRun (i : nat)
| MTimeout (j : nat)
| MHandoff (i j : nat)
| MTick (d : Z)
| MGo (g : goroutine).

Definition exec (m : move) (s : System) : option System :=
  match m with
  | MRun i => run s i
  | MTimeout j => timeout s j
  | MHandoff i j => handoff s i j
  | MTick d => if 0 <? d then Some (tick s d) else None
  | MGo g => if is_call g then Some (go s g) else None
  end.

Fixpoint execs (ms : list move) (s : System) : option System :=
  match ms with
  | [] => Some s
  | m :: ms' =>
      match exec m s with
      | Some s1 => execs ms' s1
      | None => None
      end
  end.

(** ** The pools and callers used as examples *)

Module Ex.

(** A Factory that always succeeds, its k-th call making [Res k]. *)
Definition dial : FactoryFn := fun k => (Res k, None).

(** A Factory whose calls all fail. *)
Definition dial_refused : FactoryFn := fun _ => (Nil, Some (Foreign "refused")).

(** A Factory whose first call succeeds and whose later calls fail. *)
Definition dial_once : FactoryFn :=
  fun k => match k with O => (Res 0, None) | _ => (Nil, Some (Foreign "refused")) end.

Definition hang_up : CloseFn := fun _ => None.

Definition boot : World := mkWorld 0 0 [] 0.

(** Scenario A of the specification. *)
Definition scenarioA : Config :=
  mkConfig 2 3 2 (Some dial) (Some hang_up) 0 50 1.

(** Room for two connections, none made at the start, a wait of 50 ns. *)
Definition two_callers : Config :=
  mkConfig 0 2 1 (Some dial) (Some hang_up) 0 50 1.

(** Two callers on a pool for two connections: the first Get makes a
    connection, the second is refused and times out after 50 ns, then the
    first caller puts its connection back. *)
Definition late_put : list move :=
  [MRun 0; MRun 1; MTick 50; MTimeout 1; MGo (PutCall (Res 0)); MRun 2].

(** A caller takes the idle connection and puts one back; 100 ns later a
    Get finds it stale and makes a new one; that one is put back, and one more
    is put back when the registry of one is full. *)
Definition in_and_out : list move :=
  [MRun 0; MGo (PutCall (Res 0)); MRun 1; MTick 100; MGo GetCall; MRun 2;
   MGo (PutCall (Res 1)); MRun 3; MGo (PutCall (Res 2)); MRun 4].

(** A pool that admits nobody (MaxCap 1, and the test is [<]), with a wait
    queue of two. *)
Definition no_room : Config :=
  mkConfig 0 1 1 (Some dial) (Some hang_up) 0 50 2.

(** A pool as [NewPool] leaves it, with the given queues and counter. *)
Definition pool_of (idle : list idleConn) (maxIdle : Z) (f : FactoryFn)
    (idleT waitT maxCap opening : Z) : connectionPool :=
  mkPool (mkChan idle maxIdle false) (Some f) (Some hang_up)
         (mkChan [] 1 false) idleT waitT maxCap opening.

End Ex.

(** ** Statements of the specification *)

(** A pool that nobody else is using: no request waits, no channel has been
    closed, and [idleQueue] holds no more than its capacity. *)
Definition quiet (c : connectionPool) : Prop :=
  buf (reqQueue c) = [] /\ is_closed (reqQueue c) = false /\
  is_closed (idleQueue c) = false /\
  Z.of_nat (length (buf (idleQueue c))) <= cap (idleQueue c).

(** The round trip in the specification's words: a Get that succeeds,
    followed at once by Put of what it returned, leaves the idle registry
    and the counter exactly as they were. *)
Definition round_trip_exact (c : connectionPool) (w : World) : Prop :=
  forall v c1 w1 err c2 w2,
    Get c w = GetReturn v None c1 w1 ->
    Put c1 w1 v = PutReturn err c2 w2 ->
    idleQueue c2 = idleQueue c /\ openingConn c2 = openingConn c.

(** The failures of Get in the specification's words: the time-out and the
    closed pool, nothing else. *)
Definition timeout_or_closed (e : error) : Prop :=
  e = GetConnectionTimeout \/ e = PoolClosed.

(** Nobody can receive on hand-off channel [ch]: no goroutine waits on it,
    and the calls to come will make channels of their own. *)
Definition nobody_listens (s : System) (ch : nat) : Prop :=
  (ch < next_chan (world s))%nat /\
  forall j req tk,
    threads s !! j = Some (GetWait req tk) -> req_idleConn req <> ch.

(** No request in the wait queue is marked abandoned. *)
Definition never_flagged (s : System) : Prop :=
  Forall (fun r => abandon r = false) (buf (reqQueue (pool s))).

(** A configuration that passes the test of line 49. *)
Definition valid_caps (poolConfig : Config) : Prop :=
  0 <= InitialCap poolConfig /\
  InitialCap poolConfig <= MaxIdle poolConfig /\
  MaxIdle poolConfig <= MaxCap poolConfig.

(** The entries that [n] good calls of Factory, from its call number [k]
    on, leave in the idle registry when they are made at time [now]. *)
Fixpoint warm_entries (f : FactoryFn) (k n : nat) (now : Z) : list idleConn :=
  match n with
  | O => []
  | S n' => mkIdleConn (fst (f k)) now :: warm_entries f (S k) n' now
  end.


(** What [NewPool] fixes for the life of the pool: the caller's functions,
    the two time-outs, the maximum, the capacities of the two channels, and
    whether they have been closed. *)
Definition settings (c : connectionPool)
  : option FactoryFn * option CloseFn * Z * Z * Z * Z * Z * bool * bool :=
  (factory c, close c, idleTimeOut c, waitTimeOut c, maxActiveConn c,
   cap (idleQueue c), cap (reqQueue c),
   is_closed (idleQueue c), is_closed (reqQueue c)).

(** The idle registry holds no more than its capacity. *)
Definition idle_within_cap (c : connectionPool) : Prop :=
  Z.of_nat (length (buf (idleQueue c))) <= cap (idleQueue c).

(** Every request in the wait queue and every waiting Get has a hand-off
    channel of its own, made before now. *)
Definition channels_private (s : System) : Prop :=
  NoDup (map req_idleConn (buf (reqQueue (pool s)))) /\
  Forall (fun r => (req_idleConn r < next_chan (world s))%nat)
         (buf (reqQueue (pool s))) /\
  (forall j r tk, threads s !! j = Some (GetWait r tk) ->
                  (req_idleConn r < next_chan (world s))%nat) /\
  (forall j k rj rk tj tk,
     threads s !! j = Some (GetWait rj tj) ->
     threads s !! k = Some (GetWait rk tk) ->
     req_idleConn rj = req_idleConn rk -> j = k).

(** * Properties *)

(** ** Arithmetic of the counter *)

Lemma wrap32_small z : int32 z -> wrap32 z = z.
Proof.
  unfold int32, wrap32. intros H.
  rewrite Z.mod_small by lia. lia.
Qed.

Lemma AddInt32_undo x : AddInt32 (AddInt32 x 1) (-1) = wrap32 x.
Proof.
  unfold AddInt32, wrap32.
  replace ((x + 1 + 2 ^ 31) mod 2 ^ 32 - 2 ^ 31 + -1 + 2 ^ 31)
    with ((x + 1 + 2 ^ 31) mod 2 ^ 32 + -1) by lia.
  rewrite Zplus_mod_idemp_l. f_equal. f_equal. lia.
Qed.

(** ** What the methods leave alone *)

Lemma Close_idleQueue c w conn e c' w' :
  Close c w conn = (e, c', w') ->
  idleQueue c' = idleQueue c /\ reqQueue c' = reqQueue c /\
  factory c' = factory c /\ next_chan w' = next_chan w /\
  factory_calls w' = factory_calls w.
Proof.
  unfold Close. destruct (close c); intros [= <- <- <-]; auto.
Qed.

(** [Get] hands out channel numbers in order: a parked call holds the
    number that was next, and no call moves the count back. *)
Lemma Get_default_chan c w :
  match Get_default c w with
  | GetReturn _ _ _ w' => next_chan w' = next_chan w
  | GetPark req _ _ w' =>
      req_idleConn req = next_chan w /\ next_chan w' = S (next_chan w)
  | GetPanic => True
  end.
Proof.
  unfold Get_default.
  destruct (_ <? _).
  - destruct (factory c) as [f|]; [|exact I].
    destruct (f _); reflexivity.
  - destruct (NewTicker _ _); [|exact I].
    destruct (is_closed _); [exact I|]. split; reflexivity.
Qed.

Lemma Get_loop_chan q : forall c w,
  match Get_loop q c w with
  | GetReturn _ _ _ w' => next_chan w' = next_chan w
  | GetPark req _ _ w' =>
      req_idleConn req = next_chan w /\ next_chan w' = S (next_chan w)
  | GetPanic => True
  end.
Proof.
  induction q as [|idleC q IH]; intros c w; simpl.
  - destruct (is_closed _); [reflexivity|]. apply Get_default_chan.
  - destruct (_ && _); [|reflexivity].
    destruct (Close _ w (Ptr idleC)) as [[e c2] w2] eqn:E.
    apply Close_idleQueue in E as (_ & _ & _ & Hn & _).
    specialize (IH c2 w2). rewrite Hn in IH. exact IH.
Qed.

Lemma Put_default_chan c w conn :
  match Put_default c w conn with
  | PutReturn _ _ w' | PutPark _ _ _ w' => next_chan w' = next_chan w
  | PutPanic => True
  end.
Proof.
  unfold Put_default.
  destruct (is_closed _); [exact I|].
  destruct (has_room _); [reflexivity|].
  destruct (Close _ w conn) as [[e c2] w2] eqn:E.
  apply Close_idleQueue in E as (_ & _ & _ & Hn & _). exact Hn.
Qed.

Lemma Put_try_chan q : forall c w conn,
  match Put_try q c w conn with
  | PutReturn _ _ w' | PutPark _ _ _ w' => next_chan w' = next_chan w
  | PutPanic => True
  end.
Proof.
  induction q as [|r q IH]; intros c w conn; simpl.
  - destruct (is_closed _); [reflexivity|]. apply Put_default_chan.
  - destruct (abandon r); [apply IH | reflexivity].
Qed.

(** ** Admission (lines 101-108) *)

(** With nothing idle, [Get] calls Factory exactly when the counter after
    the increment is below [maxActiveConn]; it is [<], not [<=]. *)
Lemma Get_admission c w f :
  buf (idleQueue c) = [] -> is_closed (idleQueue c) = false ->
  factory c = Some f ->
  (exists v e c' w',
      Get c w = GetReturn v e c' w' /\ factory_calls w' = S (factory_calls w))
  <-> AddInt32 (openingConn c) 1 < maxActiveConn c.
Proof.
  intros Hb Hc Hf. unfold Get. rewrite Hb. simpl. rewrite Hc.
  unfold Get_default. rewrite Hf.
  destruct (Z.ltb_spec (AddInt32 (openingConn c) 1) (maxActiveConn c)) as [Hlt|Hge].
  - split; [intros _; exact Hlt|intros _].
    destruct (f (factory_calls w)) as [v e].
    exists v, e, (set_openingConn c (AddInt32 (openingConn c) 1)), (called_factory w).
    split; reflexivity.
  - split; [|lia]. intros (v & e & c' & w' & HG & _). exfalso.
    destruct (NewTicker (waitTimeOut c) (clock w)); [|discriminate HG].
    destruct (is_closed (reqQueue c)); discriminate HG.
Qed.

(** A call that is refused a slot takes its increment back (line 108) and
    leaves the counter as it found it. *)
Lemma Get_default_refused c w req ticker c' w' :
  Get_default c w = GetPark req ticker c' w' ->
  int32 (openingConn c) ->
  openingConn c' = openingConn c /\ factory_calls w' = factory_calls w.
Proof.
  unfold Get_default. intros HG Hi.
  destruct (_ <? _).
  - destruct (factory c) as [f|]; [|discriminate HG].
    destruct (f _); discriminate HG.
  - destruct (NewTicker _ _); [|discriminate HG].
    destruct (is_closed (reqQueue c)); [discriminate HG|].
    injection HG as _ _ <- <-. simpl.
    rewrite AddInt32_undo, wrap32_small by exact Hi. split; reflexivity.
Qed.

(** C1 (the code departs from the claim).  Scenario A: the pool is built
    with InitialCap 2, MaxCap 3, MaxIdle 2; two calls of Get take the two
    idle entries; the third finds nothing idle with the counter at 2.  The
    claim admits it (3 <= 3).  The code tests [3 < 3]: it takes the
    increment back, calls no Factory and parks the caller in the wait
    queue. *)
Theorem Get_third_of_three_is_parked :
  exists c0 w0 v1 c1 w1 v2 c2 w2 req ticker c3 w3,
    NewPool Ex.scenarioA Ex.boot = NewPoolOk c0 w0 /\
    Get c0 w0 = GetReturn v1 None c1 w1 /\
    Get c1 w1 = GetReturn v2 None c2 w2 /\
    buf (idleQueue c2) = [] /\ openingConn c2 = 2 /\ maxActiveConn c2 = 3 /\
    Get c2 w2 = GetPark req ticker c3 w3 /\
    factory_calls w3 = factory_calls w2 /\
    openingConn c3 = 2 /\
    buf (reqQueue c3) = [req].
Proof.
  do 12 eexists. repeat split; try (vm_compute; reflexivity).
Qed.

(** ** Factory failure (line 105) *)

(** [return c.factory()] hands back whatever Factory returned; the counter
    keeps the increment of line 103 whether the call failed or not. *)
Lemma Get_factory_keeps_increment c w f v e :
  buf (idleQueue c) = [] -> is_closed (idleQueue c) = false ->
  factory c = Some f ->
  AddInt32 (openingConn c) 1 < maxActiveConn c ->
  f (factory_calls w) = (v, e) ->
  Get c w = GetReturn v e (set_openingConn c (AddInt32 (openingConn c) 1))
              (called_factory w).
Proof.
  intros Hb Hc Hf Hlt Hr. unfold Get. rewrite Hb. simpl. rewrite Hc.
  unfold Get_default. rewrite Hf.
  destruct (Z.ltb_spec (AddInt32 (openingConn c) 1) (maxActiveConn c)); [|lia].
  rewrite Hr. reflexivity.
Qed.

(** C2 (the code departs from the claim).  A pool with nothing idle, the
    counter at 0 and MaxCap 3, whose Factory fails: Get reserves the slot
    (counter 1), Factory fails, and Get returns that error with the counter
    still at 1, not back at 0. *)
Theorem Get_failed_factory_keeps_the_slot :
  let c := Ex.pool_of [] 2 Ex.dial_refused 0 50 3 0 in
  exists c' w',
    Get c Ex.boot = GetReturn Nil (Some (Foreign "refused")) c' w' /\
    openingConn c = 0 /\ openingConn c' = 1 /\
    buf (idleQueue c') = [] /\ close_calls w' = [].
Proof.
  do 2 eexists. repeat split; vm_compute; reflexivity.
Qed.

(** ** Warm-up (lines 70-79) *)

Lemma warm_up_close_calls n f : forall c w,
  match warm_up n f c w with
  | NewPoolOk _ w' | NewPoolErr _ w' => close_calls w' = close_calls w
  | _ => True
  end.
Proof.
  induction n as [|n IH]; intros c w; simpl; [reflexivity|].
  destruct (f (factory_calls w)) as [conn [err|]]; [reflexivity|].
  destruct (has_room _); [|exact I].
  match goal with |- context [warm_up n f ?c' ?w'] => specialize (IH c' w') end.
  exact IH.
Qed.

(** [NewPool] never calls Close, on any path. *)
Lemma NewPool_close_calls poolConfig w :
  match NewPool poolConfig w with
  | NewPoolOk _ w' | NewPoolErr _ w' => close_calls w' = close_calls w
  | _ => True
  end.
Proof.
  unfold NewPool.
  destruct (negb _); [reflexivity|].
  destruct (Factory poolConfig); [|reflexivity].
  destruct (CloseF poolConfig); [|reflexivity].
  destruct (_ || _); [exact I|].
  apply warm_up_close_calls.
Qed.

(** C4 (the code departs from the claim).  InitialCap 2 with a Factory that
    succeeds once and then fails: NewPool has made [Res 0], calls Factory a
    second time, and returns InitPoolErr without having called Close on
    [Res 0], which nothing refers to any more. *)
Theorem NewPool_failed_warm_up_closes_nothing :
  let poolConfig := mkConfig 2 3 2 (Some Ex.dial_once) (Some Ex.hang_up) 0 50 1 in
  exists w',
    NewPool poolConfig Ex.boot = NewPoolErr InitPoolErr w' /\
    factory_calls w' = 2%nat /\
    Ex.dial_once 0%nat = (Res 0, None) /\
    close_calls w' = [].
Proof.
  eexists. repeat split; vm_compute; reflexivity.
Qed.

(** ** Overflow in Put (lines 156-159) *)

(** With no request waiting and no room in [idleQueue], [Put] takes one off
    the counter itself and then calls [Close], which takes off another. *)
Lemma Put_overflow c w conn cl :
  is_nil conn = false ->
  buf (reqQueue c) = [] -> is_closed (reqQueue c) = false ->
  is_closed (idleQueue c) = false -> has_room (idleQueue c) = false ->
  close c = Some cl ->
  Put c w conn =
    PutReturn (cl conn)
      (set_openingConn c (AddInt32 (AddInt32 (openingConn c) (-1)) (-1)))
      (called_close w conn).
Proof.
  intros Hn Hb Hc Hi Hr Hcl. unfold Put. rewrite Hn, Hb. simpl. rewrite Hc.
  unfold Put_default. rewrite Hi, Hr. unfold Close. simpl. rewrite Hcl.
  reflexivity.
Qed.

(** C5 (the code departs from the claim).  MaxIdle 1 with one idle entry,
    no request waiting, the counter at 2: Put of [Res 9] calls Close on it
    once and leaves the counter at 0, a change of -2 where the claim (and
    [Close] taken alone) has -1. *)
Theorem Put_overflow_takes_two_off_the_counter :
  let c := Ex.pool_of [mkIdleConn (Res 0) 0] 1 Ex.dial 0 50 3 2 in
  exists c' w' cD wD,
    Put c Ex.boot (Res 9) = PutReturn None c' w' /\
    close_calls w' = [Res 9] /\
    openingConn c = 2 /\ openingConn c' = 0 /\
    Close c Ex.boot (Res 9) = (None, cD, wD) /\ openingConn cD = 1.
Proof.
  do 4 eexists. repeat split; vm_compute; reflexivity.
Qed.

(** ** The idle entry (lines 88-99) *)

(** An entry that has not timed out is returned as it is: line 98 returns
    [idleC], the [*idleConn], not [idleC.connection]. *)
Lemma Get_idle_hit c w idleC q :
  buf (idleQueue c) = idleC :: q ->
  (0 <? idleTimeOut c) && timed_out c w idleC = false ->
  Get c w = GetReturn (Ptr idleC) None
              (set_idleQueue c (with_buf (idleQueue c) q)) w.
Proof.
  intros Hb He. unfold Get. rewrite Hb. simpl. rewrite He. reflexivity.
Qed.

(** An entry that has timed out goes to [Close] (line 94, again as the
    [*idleConn]), which takes one off the counter, and the loop goes round
    with what is left. *)
Lemma Get_idle_expired c w idleC q cl :
  buf (idleQueue c) = idleC :: q ->
  (0 <? idleTimeOut c) && timed_out c w idleC = true ->
  close c = Some cl ->
  Get c w =
    Get (set_openingConn (set_idleQueue c (with_buf (idleQueue c) q))
           (AddInt32 (openingConn c) (-1)))
        (called_close w (Ptr idleC)).
Proof.
  intros Hb He Hcl. unfold Get at 1. rewrite Hb. simpl. rewrite He.
  unfold Close. simpl. rewrite Hcl. reflexivity.
Qed.

(** C6 (the code departs from the claim).  One idle entry holding [Res 7].
    Not timed out: Get returns the entry itself, [Ptr idleC], where the
    claim has the resource in it, [Res 7].  Timed out (IdleTimeout 10, the
    entry 100 ns old): the counter goes down by one and the loop goes on to
    make a new resource, as claimed, but what Close was called with is the
    entry again, not [Res 7]. *)
Theorem Get_hands_out_the_entry_wrapper :
  let idleC := mkIdleConn (Res 7) 0 in
  let c := Ex.pool_of [idleC] 2 Ex.dial 0 50 3 1 in
  let cT := Ex.pool_of [idleC] 2 Ex.dial 10 50 3 1 in
  let later := mkWorld 100 1 [] 0 in
  connection idleC = Res 7 /\
  (exists c' w', Get c Ex.boot = GetReturn (Ptr idleC) None c' w' /\
                 buf (idleQueue c') = []) /\
  Ptr idleC <> Res 7 /\
  (exists v c' w', Get cT later = GetReturn v None c' w' /\
                   close_calls w' = [Ptr idleC] /\
                   factory_calls w' = 2%nat /\
                   openingConn c' = 1).
Proof.
  repeat split; try discriminate.
  - do 2 eexists. split; vm_compute; reflexivity.
  - do 3 eexists. repeat split; vm_compute; reflexivity.
Qed.

(** ** The ticker (line 114) *)

(** A call that is refused a slot makes its ticker before anything else can
    happen to it; with [waitTimeOut <= 0] that is a panic. *)
Lemma Get_no_slot_no_wait_panics c w :
  buf (idleQueue c) = [] -> is_closed (idleQueue c) = false ->
  maxActiveConn c <= AddInt32 (openingConn c) 1 ->
  waitTimeOut c <= 0 ->
  Get c w = GetPanic.
Proof.
  intros Hb Hc Hge Hw. unfold Get. rewrite Hb. simpl. rewrite Hc.
  unfold Get_default.
  destruct (Z.ltb_spec (AddInt32 (openingConn c) 1) (maxActiveConn c)); [lia|].
  unfold NewTicker.
  destruct (Z.leb_spec (waitTimeOut c) 0); [|lia].
  destruct (factory c); reflexivity.
Qed.

(** C8 (the code departs from the claim).  MaxCap 1, nothing idle, the
    counter at 1, WaitTimeout 0, room in the wait queue: NewPool accepts
    the configuration, and the first Get that is refused a slot panics in
    [time.NewTicker(0)] before it has put any request in the wait queue. *)
Theorem Get_with_zero_WaitTimeout_panics :
  let poolConfig := mkConfig 1 1 1 (Some Ex.dial) (Some Ex.hang_up) 0 0 1 in
  exists c0 w0 v1 c1 w1,
    NewPool poolConfig Ex.boot = NewPoolOk c0 w0 /\
    waitTimeOut c0 = 0 /\
    Get c0 w0 = GetReturn v1 None c1 w1 /\
    buf (idleQueue c1) = [] /\ buf (reqQueue c1) = [] /\
    Get c1 w1 = GetPanic.
Proof.
  do 5 eexists. repeat split; vm_compute; reflexivity.
Qed.

(** ** Get followed by Put *)

(** C9, the claim as stated, fails.  Nothing idle, the counter at 0: Get
    makes [Res 0] (counter 1) and Put stores it, so that afterwards the
    registry holds an entry and the counter is 1.  Two idle entries: Get
    takes the first and Put appends a new one behind the second, so the
    registry is not what it was. *)
Lemma round_trip_exact_fails :
  (quiet (Ex.pool_of [] 2 Ex.dial 0 50 3 0) /\
   ~ round_trip_exact (Ex.pool_of [] 2 Ex.dial 0 50 3 0) Ex.boot) /\
  (quiet (Ex.pool_of [mkIdleConn (Res 0) 0; mkIdleConn (Res 1) 0] 2 Ex.dial 0 50 3 2) /\
   ~ round_trip_exact
       (Ex.pool_of [mkIdleConn (Res 0) 0; mkIdleConn (Res 1) 0] 2 Ex.dial 0 50 3 2)
       Ex.boot).
Proof.
  split; (split; [repeat split; vm_compute; congruence|]); intros H.
  - edestruct H as [_ Hn]; [vm_compute; reflexivity .. |].
    vm_compute in Hn. discriminate Hn.
  - edestruct H as [Hq _]; [vm_compute; reflexivity .. |].
    vm_compute in Hq. discriminate Hq.
Qed.

(** C9, amended.  In a quiet pool:
    - when Get is served by the entry at the head of the idle registry (the
      entry has not timed out), Put of what Get returned, at that moment or
      any time later, leaves the counter and the number of idle entries as
      they were before the Get: the entries behind the head move up and one
      new entry, stamped with the time of the Put, follows them;
    - when MaxIdle is positive and Get finds the registry empty and makes
      a resource (not nil) with Factory, Put of it leaves the counter one
      higher than before the Get and the registry with that one resource in
      it. *)
Theorem Get_then_Put c w :
  quiet c ->
  (forall idleC q,
     buf (idleQueue c) = idleC :: q ->
     (0 <? idleTimeOut c) && timed_out c w idleC = false ->
     exists v c1,
       Get c w = GetReturn v None c1 w /\
       forall d, 0 <= d ->
         exists c2 e,
           Put c1 (advance w d) v = PutReturn None c2 (advance w d) /\
           openingConn c2 = openingConn c /\
           buf (idleQueue c2) = q ++ [e] /\
           lastActiveTime e = clock w + d /\
           length (buf (idleQueue c2)) = length (buf (idleQueue c)))
  /\
  (forall f v,
     buf (idleQueue c) = [] ->
     factory c = Some f ->
     AddInt32 (openingConn c) 1 < maxActiveConn c ->
     f (factory_calls w) = (v, None) -> is_nil v = false ->
     0 < cap (idleQueue c) ->
     exists c1 w1 c2,
       Get c w = GetReturn v None c1 w1 /\
       Put c1 w1 v = PutReturn None c2 w1 /\
       openingConn c2 = AddInt32 (openingConn c) 1 /\
       buf (idleQueue c2) = [mkIdleConn v (clock w)]).
Proof.
  intros (Hrq & Hrc & Hic & Hlen). split.
  - intros idleC q Hb He.
    exists (Ptr idleC), (set_idleQueue c (with_buf (idleQueue c) q)).
    split; [apply Get_idle_hit; assumption|].
    intros d _.
    exists (set_idleQueue c
              (with_buf (idleQueue c) (q ++ [mkIdleConn (Ptr idleC) (clock w + d)]))),
           (mkIdleConn (Ptr idleC) (clock w + d)).
    unfold Put. simpl. rewrite Hrq. simpl. rewrite Hrc.
    unfold Put_default. simpl. rewrite Hic.
    unfold has_room. simpl.
    rewrite Hb in Hlen. simpl in Hlen.
    destruct (Z.ltb_spec (Z.of_nat (length q)) (cap (idleQueue c))); [|lia].
    repeat split.
    rewrite Hb, length_app. simpl. lia.
  - intros f v Hb Hf Hlt Hr Hn Hcap.
    exists (set_openingConn c (AddInt32 (openingConn c) 1)), (called_factory w).
    exists (set_idleQueue (set_openingConn c (AddInt32 (openingConn c) 1))
              (with_buf (idleQueue c) [mkIdleConn v (clock w)])).
    split; [apply Get_factory_keeps_increment with f; assumption|].
    unfold Put. rewrite Hn. simpl. rewrite Hrq. simpl. rewrite Hrc.
    unfold Put_default. simpl. rewrite Hic.
    unfold has_room. simpl. rewrite Hb. simpl. change (Z.of_nat 0) with 0.
    destruct (Z.ltb_spec 0 (cap (idleQueue c))); [|lia].
    repeat split.
Qed.

(** The two cases of [Get_then_Put] at work: a pool with two idle entries,
    and a pool with none. *)
Lemma Get_then_Put_witness :
  (exists v c1 c2 e,
     let c := Ex.pool_of [mkIdleConn (Res 0) 0; mkIdleConn (Res 1) 0] 2 Ex.dial 0 50 3 2 in
     Get c Ex.boot = GetReturn v None c1 Ex.boot /\
     Put c1 (advance Ex.boot 5) v = PutReturn None c2 (advance Ex.boot 5) /\
     openingConn c2 = 2 /\
     buf (idleQueue c2) = [mkIdleConn (Res 1) 0; e] /\
     lastActiveTime e = 5) /\
  (exists c1 w1 c2,
     let c := Ex.pool_of [] 2 Ex.dial 0 50 3 0 in
     Get c Ex.boot = GetReturn (Res 0) None c1 w1 /\
     Put c1 w1 (Res 0) = PutReturn None c2 w1 /\
     openingConn c2 = 1 /\
     buf (idleQueue c2) = [mkIdleConn (Res 0) 0]).
Proof.
  split.
  - destruct (Get_then_Put
                (Ex.pool_of [mkIdleConn (Res 0) 0; mkIdleConn (Res 1) 0] 2 Ex.dial 0 50 3 2)
                Ex.boot) as [Hhit _].
    { repeat split; vm_compute; congruence. }
    destruct (Hhit (mkIdleConn (Res 0) 0) [mkIdleConn (Res 1) 0] eq_refl eq_refl)
      as (v & c1 & HG & HP).
    destruct (HP 5 ltac:(lia)) as (c2 & e & HP' & Hn & Hb & Ht & _).
    exists v, c1, c2, e. repeat split; assumption.
  - destruct (Get_then_Put (Ex.pool_of [] 2 Ex.dial 0 50 3 0) Ex.boot) as [_ Hnew].
    { repeat split; vm_compute; congruence. }
    destruct (Hnew Ex.dial (Res 0) eq_refl eq_refl ltac:(vm_compute; reflexivity)
                eq_refl eq_refl ltac:(simpl; lia))
      as (c1 & w1 & c2 & HG & HP & Hn & Hb).
    exists c1, w1, c2. repeat split; assumption.
Defined.

(** ** The scan of the wait queue (lines 137-147) *)

(** [Put] drops the requests marked [abandon] from the head of the queue and
    stops at the first one that is not, to send on its channel. *)
Lemma Put_try_scan dropped : forall c w conn req rest,
  Forall (fun r => abandon r = true) dropped ->
  abandon req = false ->
  Put_try (dropped ++ req :: rest) c w conn =
    PutPark req conn (set_reqQueue c (with_buf (reqQueue c) rest)) w.
Proof.
  induction dropped as [|r dropped IH]; intros c w conn req rest Hd Hr; simpl.
  - rewrite Hr. reflexivity.
  - inversion Hd as [|? ? Hr' Hd']; subst. rewrite Hr'.
    rewrite IH by assumption. reflexivity.
Qed.

Lemma in_send_fresh (q : chan connReq) ch :
  Forall (fun r => req_idleConn r <> ch) (buf q) -> in_send q ch = false.
Proof.
  intros H. unfold in_send.
  apply not_true_is_false. intros Hex.
  apply existsb_exists in Hex as (r & Hin & Heq).
  apply Nat.eqb_eq in Heq.
  rewrite Forall_forall in H. apply (H r); [|exact Heq].
  apply list_elem_of_In in Hin.
  apply (subseteq_drop (Z.to_nat (cap q)) (buf q)), Hin.
Qed.

Lemma lookup_insert_cases {A} (l : list A) i j x y :
  <[i := x]> l !! j = Some y ->
  (j = i /\ y = x) \/ (j <> i /\ l !! j = Some y).
Proof.
  intros H. apply list_lookup_insert_Some in H as [(-> & -> & _)|[Hne Hl]]; auto.
Qed.

(** ** The send of line 147 *)

Lemma Get_chan c w :
  match Get c w with
  | GetReturn _ _ _ w' => next_chan w' = next_chan w
  | GetPark req _ _ w' =>
      req_idleConn req = next_chan w /\ next_chan w' = S (next_chan w)
  | GetPanic => True
  end.
Proof. apply Get_loop_chan. Qed.

Lemma Put_chan c w conn :
  match Put c w conn with
  | PutReturn _ _ w' | PutPark _ _ _ w' => next_chan w' = next_chan w
  | PutPanic => True
  end.
Proof.
  unfold Put. destruct (is_nil conn); [reflexivity|]. apply Put_try_chan.
Qed.

(** Once nobody listens on a channel, nobody ever will. *)
Lemma step_nobody_listens s s' ch :
  step s s' -> nobody_listens s ch -> nobody_listens s' ch.
Proof.
  intros Hstep [Hlt Hno].
  destruct Hstep as [s i s' Hrun|s j s' Ht|s i j s' Hh|s d Hd|s g Hg].
  - unfold run in Hrun.
    destruct (threads s !! i) as [[| | |conn| | |]|] eqn:Hi; try discriminate;
      injection Hrun as <-.
    + pose proof (Get_chan (pool s) (world s)) as HG.
      destruct (Get (pool s) (world s)) as [v e c w|req tk c w|]; simpl.
      * split; [simpl; lia|]. intros j' r tk Hl.
        apply lookup_insert_cases in Hl as [[_ ?]|[_ Hl]]; [discriminate|eauto].
      * destruct HG as [Hid Hn]. split; [simpl; lia|]. intros j' r tk' Hl.
        apply lookup_insert_cases in Hl as [[_ Heq]|[_ Hl]]; [|eauto].
        injection Heq as -> ->. lia.
      * split; [exact Hlt|]. intros j' r tk Hl.
        apply lookup_insert_cases in Hl as [[_ ?]|[_ Hl]]; [discriminate|eauto].
    + pose proof (Put_chan (pool s) (world s) conn) as HP.
      destruct (Put (pool s) (world s) conn) as [e c w|req v c w|]; simpl;
        (split; [simpl; lia|]); intros j' r tk Hl;
        apply lookup_insert_cases in Hl as [[_ ?]|[_ Hl]]; try discriminate; eauto.
  - unfold timeout in Ht.
    destruct (threads s !! j) as [[|req tk| | | | |]|] eqn:Hj; try discriminate.
    destruct (_ && _); [|discriminate]. injection Ht as <-.
    split; [exact Hlt|]. simpl. intros j' r tk' Hl.
    apply lookup_insert_cases in Hl as [[_ ?]|[_ Hl]]; [discriminate|eauto].
  - unfold handoff in Hh.
    destruct (threads s !! i) as [[| | | |req conn| |]|] eqn:Hi; try discriminate.
    destruct (threads s !! j) as [[|req' tk| | | | |]|] eqn:Hj; try discriminate.
    destruct (_ && _); [|discriminate]. injection Hh as <-.
    split; [exact Hlt|]. simpl. intros j' r tk' Hl.
    apply lookup_insert_cases in Hl as [[_ ?]|[_ Hl]]; [discriminate|].
    apply lookup_insert_cases in Hl as [[_ ?]|[_ Hl]]; [discriminate|eauto].
  - split; [exact Hlt|]. exact Hno.
  - split; [exact Hlt|]. simpl. intros j' r tk Hl.
    apply lookup_app_Some in Hl as [Hl|[_ Hl]]; [eauto|].
    apply list_lookup_singleton_Some in Hl as [_ ->]. discriminate Hg.
Qed.

(** A goroutine in the send of line 147 moves in one way only: by a
    hand-off to a goroutine that waits on the same channel. *)
Lemma step_PutSend_cases s s' i req conn :
  step s s' ->
  threads s !! i = Some (PutSend req conn) ->
  threads s' !! i = Some (PutSend req conn) \/
  exists j req' tk,
    threads s !! j = Some (GetWait req' tk) /\
    req_idleConn req' = req_idleConn req /\
    handoff s i j = Some s'.
Proof.
  intros Hstep Hi.
  destruct Hstep as [s k s' Hrun|s j s' Ht|s k j s' Hh|s d Hd|s g Hg].
  - left. destruct (decide (k = i)) as [->|Hne].
    { unfold run in Hrun. rewrite Hi in Hrun. discriminate. }
    unfold run in Hrun.
    destruct (threads s !! k) as [[| | |v| | |]|]; try discriminate;
      injection Hrun as <-.
    + destruct (Get _ _); simpl; rewrite list_lookup_insert_ne by exact Hne;
        exact Hi.
    + destruct (Put _ _ _); simpl; rewrite list_lookup_insert_ne by exact Hne;
        exact Hi.
  - left. destruct (decide (j = i)) as [->|Hne].
    { unfold timeout in Ht. rewrite Hi in Ht. discriminate. }
    unfold timeout in Ht.
    destruct (threads s !! j) as [[|r tk| | | | |]|]; try discriminate.
    destruct (_ && _); [|discriminate]. injection Ht as <-. simpl.
    rewrite list_lookup_insert_ne by exact Hne. exact Hi.
  - destruct (decide (k = i)) as [->|Hki].
    + right. pose proof Hh as Hh'. unfold handoff in Hh'. rewrite Hi in Hh'.
      destruct (threads s !! j) as [[|r' tk| | | | |]|] eqn:Hj; try discriminate.
      destruct (Nat.eqb_spec (req_idleConn req) (req_idleConn r')) as [Heq|];
        [|discriminate].
      exists j, r', tk. auto.
    + left. unfold handoff in Hh.
      destruct (threads s !! k) as [[| | | |r v| |]|] eqn:Hk; try discriminate.
      destruct (threads s !! j) as [[|r' tk| | | | |]|] eqn:Hj; try discriminate.
      destruct (_ && _); [|discriminate]. injection Hh as <-. simpl.
      destruct (decide (j = i)) as [->|Hji].
      { rewrite Hi in Hj. discriminate. }
      rewrite !list_lookup_insert_ne by assumption. exact Hi.
  - left. exact Hi.
  - left. simpl. apply lookup_app_l_Some. exact Hi.
Qed.

(** On a channel nobody listens on, it does not move at all. *)
Lemma step_PutSend_stays s s' i req conn :
  step s s' ->
  threads s !! i = Some (PutSend req conn) ->
  nobody_listens s (req_idleConn req) ->
  threads s' !! i = Some (PutSend req conn).
Proof.
  intros Hstep Hi [_ Hno].
  destruct (step_PutSend_cases s s' i req conn Hstep Hi)
    as [Hstay|(j & r' & tk & Hj & Heq & _)]; [exact Hstay|].
  exfalso. exact (Hno j r' tk Hj Heq).
Qed.

Lemma steps_PutSend_stays s s' i req conn :
  steps s s' ->
  threads s !! i = Some (PutSend req conn) ->
  nobody_listens s (req_idleConn req) ->
  threads s' !! i = Some (PutSend req conn).
Proof.
  intros Hsteps. induction Hsteps as [s|s s1 s' Hstep _ IH]; intros Hi Hno.
  - exact Hi.
  - apply IH.
    + eapply step_PutSend_stays; eassumption.
    + eapply step_nobody_listens; eassumption.
Qed.

(** The hand-off when it does take place.  Goroutine [i] calls Put with a
    resource that is not nil; the wait queue holds some requests marked
    abandoned, then a request [req] that is not, then the rest; the Get that
    made [req], goroutine [j], is still waiting on its hand-off channel,
    which is its own.  Then Put drops the abandoned requests and [req] from
    the queue and comes to the send of line 147; from there the one step
    that moves it is the hand-off to [j], and that step makes the waiting
    Get return the resource without error and Put return nil, with the idle
    registry and the counter as they were.  Nothing here says that the
    hand-off is the step that comes next: the ticker of [j] can fire
    first. *)
Theorem Put_hands_over_to_the_waiting_Get
    s i j conn dropped req rest req' ticker :
  i <> j ->
  threads s !! i = Some (PutCall conn) ->
  is_nil conn = false ->
  threads s !! j = Some (GetWait req' ticker) ->
  req_idleConn req' = req_idleConn req ->
  (forall k r tk, threads s !! k = Some (GetWait r tk) ->
                  req_idleConn r = req_idleConn req -> k = j) ->
  buf (reqQueue (pool s)) = dropped ++ req :: rest ->
  Forall (fun r => abandon r = true) dropped ->
  abandon req = false ->
  Forall (fun r => req_idleConn r <> req_idleConn req) rest ->
  exists s1 s2,
    run s i = Some s1 /\ step s s1 /\
    threads s1 !! i = Some (PutSend req conn) /\
    threads s1 !! j = Some (GetWait req' ticker) /\
    buf (reqQueue (pool s1)) = rest /\
    idleQueue (pool s1) = idleQueue (pool s) /\
    handoff s1 i j = Some s2 /\ step s1 s2 /\
    (forall s', step s1 s' ->
                threads s' !! i = Some (PutSend req conn) \/ s' = s2) /\
    threads s2 !! i = Some (PutDone None) /\
    threads s2 !! j = Some (GetDone conn None) /\
    buf (reqQueue (pool s2)) = rest /\
    idleQueue (pool s2) = idleQueue (pool s) /\
    openingConn (pool s2) = openingConn (pool s) /\
    world s2 = world s.
Proof.
  intros Hij Hi Hn Hj Hch Hown Hq Hd Ha Hrest.
  pose proof (lookup_lt_Some _ _ _ Hi) as Hli.
  pose proof (lookup_lt_Some _ _ _ Hj) as Hlj.
  set (c1 := set_reqQueue (pool s) (with_buf (reqQueue (pool s)) rest)).
  set (s1 := mkSystem c1 (world s) (<[i := PutSend req conn]> (threads s))).
  set (s2 := mkSystem c1 (world s)
               (<[i := PutDone None]>
                  (<[j := GetDone conn None]> (threads s1)))).
  assert (Hrun : run s i = Some s1).
  { unfold run. rewrite Hi. unfold Put. rewrite Hn, Hq.
    rewrite Put_try_scan by assumption. reflexivity. }
  assert (Hi1 : threads s1 !! i = Some (PutSend req conn)).
  { simpl. apply list_lookup_insert_eq. exact Hli. }
  assert (Hj1 : threads s1 !! j = Some (GetWait req' ticker)).
  { simpl. rewrite list_lookup_insert_ne by exact Hij. exact Hj. }
  assert (Hhand : handoff s1 i j = Some s2).
  { unfold handoff. rewrite Hi1, Hj1. rewrite Hch, Nat.eqb_refl.
    rewrite in_send_fresh by exact Hrest. reflexivity. }
  exists s1, s2.
  split; [exact Hrun|]. split; [eapply step_run; exact Hrun|].
  split; [exact Hi1|]. split; [exact Hj1|]. split; [reflexivity|].
  split; [reflexivity|].
  split; [exact Hhand|]. split; [eapply step_handoff; exact Hhand|].
  split.
  { intros s' Hstep.
    destruct (step_PutSend_cases s1 s' i req conn Hstep Hi1)
      as [Hstay|(k & r & tk & Hk & Heq & Hh)]; [left; exact Hstay|right].
    assert (k = j) as ->.
    { destruct (decide (k = i)) as [->|Hki].
      - rewrite Hi1 in Hk. discriminate Hk.
      - simpl in Hk. rewrite list_lookup_insert_ne in Hk by (symmetry; exact Hki).
        exact (Hown k r tk Hk Heq). }
    rewrite Hhand in Hh. injection Hh as <-. reflexivity. }
  split.
  { simpl. apply list_lookup_insert_eq.
    rewrite !length_insert. exact Hli. }
  split.
  { simpl. rewrite list_lookup_insert_ne by exact Hij.
    apply list_lookup_insert_eq. rewrite length_insert. exact Hlj. }
  repeat split.
Qed.

(** [Put_hands_over_to_the_waiting_Get] on a queue of one abandoned request
    and the request of the goroutine that waits. *)
Lemma Put_hands_over_to_the_waiting_Get_witness :
  let c := mkPool (mkChan [] 2 false) (Some Ex.dial) (Some Ex.hang_up)
             (mkChan [mkConnReq true 0; mkConnReq false 1] 2 false)
             0 50 2 2 in
  let s := mkSystem c (mkWorld 10 2 [] 2)
             [PutCall (Res 0); GetWait (mkConnReq false 1) (mkTicker 0 50)] in
  exists s1 s2,
    run s 0 = Some s1 /\ handoff s1 0 1 = Some s2 /\
    threads s2 = [PutDone None; GetDone (Res 0) None] /\
    buf (idleQueue (pool s2)) = [] /\
    buf (reqQueue (pool s2)) = [] /\
    openingConn (pool s2) = 2 /\
    (forall s', step s1 s' ->
                threads s' !! 0%nat = Some (PutSend (mkConnReq false 1) (Res 0))
                \/ s' = s2).
Proof.
  intros c s.
  destruct (Put_hands_over_to_the_waiting_Get s 0%nat 1%nat (Res 0)
              [mkConnReq true 0] (mkConnReq false 1) []
              (mkConnReq false 1) (mkTicker 0 50))
    as (s1 & s2 & Hrun & _ & _ & _ & _ & _ & Hh & _ & Honly & _);
    try reflexivity.
  - discriminate.
  - intros [|[|k]] r tk Hk _; [discriminate Hk|reflexivity|discriminate Hk].
  - repeat constructor.
  - constructor.
  - exists s1, s2. split; [exact Hrun|]. split; [exact Hh|].
    vm_compute in Hrun. injection Hrun as <-.
    vm_compute in Hh. injection Hh as <-.
    repeat split. exact Honly.
Defined.

(** ** The abandon flag (lines 123 and 143) *)

Lemma Get_loop_reqQueue q : forall c w,
  match Get_loop q c w with
  | GetReturn _ _ c' _ => reqQueue c' = reqQueue c
  | GetPark req _ c' _ =>
      abandon req = false /\ buf (reqQueue c') = buf (reqQueue c) ++ [req]
  | GetPanic => True
  end.
Proof.
  induction q as [|idleC q IH]; intros c w; simpl.
  - destruct (is_closed (idleQueue c)); [reflexivity|].
    unfold Get_default.
    destruct (_ <? _).
    + destruct (factory c) as [f|]; [|exact I]. destruct (f _); reflexivity.
    + destruct (NewTicker _ _); [|exact I].
      destruct (is_closed (reqQueue c)); [exact I|]. split; reflexivity.
  - destruct (_ && _); [|reflexivity].
    destruct (Close _ w (Ptr idleC)) as [[e c2] w2] eqn:E.
    apply Close_idleQueue in E as (_ & Hr & _).
    specialize (IH c2 w2). simpl in Hr. rewrite Hr in IH. exact IH.
Qed.

Lemma Put_try_reqQueue (P : connReq -> Prop) q : forall c w conn,
  buf (reqQueue c) = q -> Forall P q ->
  match Put_try q c w conn with
  | PutReturn _ c' _ | PutPark _ _ c' _ => Forall P (buf (reqQueue c'))
  | PutPanic => True
  end.
Proof.
  induction q as [|r q IH]; intros c w conn Hb HP; simpl.
  - destruct (is_closed (reqQueue c)); [rewrite Hb; constructor|].
    unfold Put_default.
    destruct (is_closed (idleQueue c)); [exact I|].
    destruct (has_room _); [simpl; rewrite Hb; constructor|].
    destruct (Close _ w conn) as [[e c2] w2] eqn:E.
    apply Close_idleQueue in E as (_ & Hr & _). simpl in Hr.
    rewrite Hr, Hb. constructor.
  - inversion HP as [|? ? _ HP']; subst.
    destruct (abandon r); [|exact HP'].
    apply IH; [reflexivity|exact HP'].
Qed.

(** No step puts a flagged request in the wait queue: the requests that
    [Put] finds there were all sent with [abandon] false, and line 123
    changes none of them. *)
Lemma step_never_flagged s s' :
  step s s' -> never_flagged s -> never_flagged s'.
Proof.
  unfold never_flagged. intros Hstep Hnf.
  destruct Hstep as [s i s' Hrun|s j s' Ht|s i j s' Hh|s d Hd|s g Hg];
    try exact Hnf.
  - unfold run in Hrun.
    destruct (threads s !! i) as [[| | |conn| | |]|]; try discriminate;
      injection Hrun as <-.
    + pose proof (Get_loop_reqQueue (buf (idleQueue (pool s))) (pool s) (world s))
        as HG. unfold Get.
      destruct (Get_loop _ _ _) as [v e c w|req tk c w|]; simpl.
      * rewrite HG. exact Hnf.
      * destruct HG as [Ha ->]. apply Forall_app. split; [exact Hnf|].
        constructor; [exact Ha|constructor].
      * exact Hnf.
    + unfold Put. destruct (is_nil conn); [exact Hnf|].
      pose proof (Put_try_reqQueue (fun r => abandon r = false)
                    (buf (reqQueue (pool s))) (pool s) (world s) conn
                    eq_refl Hnf) as HP.
      destruct (Put_try _ _ _ _); simpl; first [exact HP|exact Hnf].
  - unfold timeout in Ht.
    destruct (threads s !! j) as [[|r tk| | | | |]|]; try discriminate.
    destruct (_ && _); [|discriminate]. injection Ht as <-. exact Hnf.
  - unfold handoff in Hh.
    destruct (threads s !! i) as [[| | | |r v| |]|]; try discriminate.
    destruct (threads s !! j) as [[|r' tk| | | | |]|]; try discriminate.
    destruct (_ && _); [|discriminate]. injection Hh as <-. exact Hnf.
Qed.

Lemma steps_never_flagged s s' :
  steps s s' -> never_flagged s -> never_flagged s'.
Proof.
  intros Hsteps. induction Hsteps as [s|s s1 s' Hstep _ IH]; intros H0.
  - exact H0.
  - apply IH. eapply step_never_flagged; eassumption.
Qed.

Lemma warm_up_reqQueue n f : forall c w c' w',
  warm_up n f c w = NewPoolOk c' w' -> reqQueue c' = reqQueue c.
Proof.
  induction n as [|n IH]; intros c w c' w'; simpl.
  - intros [= <- _]. reflexivity.
  - destruct (f (factory_calls w)) as [conn [err|]]; [discriminate|].
    destruct (has_room _); [|discriminate].
    intros H. apply IH in H. exact H.
Qed.

(** X16.  In every state that a program reaches from a pool made by
    NewPool, no request in the wait queue is marked abandoned, however many
    calls of Get have timed out: the test of line 143 never finds the flag
    set. *)
Lemma flag_never_reaches_the_queue poolConfig w c0 w0 gs s :
  NewPool poolConfig w = NewPoolOk c0 w0 ->
  steps (mkSystem c0 w0 gs) s ->
  never_flagged s.
Proof.
  intros HN Hsteps.
  assert (H0 : never_flagged (mkSystem c0 w0 gs)).
  { unfold never_flagged. simpl. unfold NewPool in HN.
    destruct (negb _); [discriminate|].
    destruct (Factory poolConfig); [|discriminate].
    destruct (CloseF poolConfig); [|discriminate].
    destruct (_ || _); [discriminate|].
    apply warm_up_reqQueue in HN. rewrite HN. constructor. }
  eapply steps_never_flagged; eassumption.
Qed.

(** Scenario B: a Get that waits is served by the Put of another caller;
    nothing goes to the idle registry. *)
Lemma scenario_B :
  exists c0 w0 s,
    NewPool Ex.two_callers Ex.boot = NewPoolOk c0 w0 /\
    steps (mkSystem c0 w0 [GetCall; GetCall]) s /\
    threads s = [GetDone (Res 0) None; GetDone (Res 0) None; PutDone None] /\
    buf (idleQueue (pool s)) = [] /\ buf (reqQueue (pool s)) = [] /\
    openingConn (pool s) = 1.
Proof.
  eexists _, _, _.
  split; [vm_compute; reflexivity|].
  split.
  { eapply rtc_l; [apply step_run with (i := 0%nat); vm_compute; reflexivity|].
    eapply rtc_l; [apply step_run with (i := 1%nat); vm_compute; reflexivity|].
    eapply rtc_l; [apply step_go with (g := PutCall (Res 0)); reflexivity|].
    eapply rtc_l; [apply step_run with (i := 2%nat); vm_compute; reflexivity|].
    eapply rtc_l; [apply step_handoff with (i := 2%nat) (j := 1%nat);
                   vm_compute; reflexivity|].
    apply rtc_refl. }
  repeat split.
Qed.

(** C3 (the code departs from the claim).  A pool with MaxCap 2, wait
    queue of 1 and WaitTimeout 50 ns.  One caller's Get makes [Res 0].  A
    second caller's Get is refused a slot, puts its request in the wait
    queue and waits; after 50 ns its ticker fires and it returns the
    time-out error, having set [abandon] in its own copy of the request.
    The first caller then calls Put with [Res 0].  Put finds the request in
    the queue, with [abandon] still false, and sends on its channel: the
    receiver has gone, so this goroutine stays in that send in every run of
    the program from there on, whatever other calls are made. *)
Theorem Put_blocks_forever_on_a_timed_out_request :
  exists c0 w0 s req,
    NewPool Ex.two_callers Ex.boot = NewPoolOk c0 w0 /\
    steps (mkSystem c0 w0 [GetCall; GetCall]) s /\
    threads s !! 0%nat = Some (GetDone (Res 0) None) /\
    threads s !! 1%nat = Some (GetDone Nil (Some GetConnectionTimeout)) /\
    threads s !! 2%nat = Some (PutSend req (Res 0)) /\
    abandon req = false /\
    buf (idleQueue (pool s)) = [] /\
    forall s', steps s s' -> threads s' !! 2%nat = Some (PutSend req (Res 0)).
Proof.
  eexists _, _, _, (mkConnReq false 0).
  split; [vm_compute; reflexivity|].
  split.
  { eapply rtc_l; [apply step_run with (i := 0%nat); vm_compute; reflexivity|].
    eapply rtc_l; [apply step_run with (i := 1%nat); vm_compute; reflexivity|].
    eapply rtc_l; [apply step_tick with (d := 50); lia|].
    eapply rtc_l; [apply step_timeout with (j := 1%nat); vm_compute; reflexivity|].
    eapply rtc_l; [apply step_go with (g := PutCall (Res 0)); reflexivity|].
    eapply rtc_l; [apply step_run with (i := 2%nat); vm_compute; reflexivity|].
    apply rtc_refl. }
  repeat split.
  intros s' Hsteps.
  eapply steps_PutSend_stays; [exact Hsteps|reflexivity|].
  split; [simpl; lia|].
  intros [|[|[|j]]] r tk Hl; discriminate Hl.
Qed.

(** ** The failures of Get *)

Lemma Get_loop_error q : forall c w v e c' w',
  Get_loop q c w = GetReturn v (Some e) c' w' ->
  e = PoolClosed \/ exists f k, factory c = Some f /\ f k = (v, Some e).
Proof.
  induction q as [|idleC q IH]; intros c w v e c' w'; simpl.
  - destruct (is_closed (idleQueue c)).
    { intros [= _ <- _ _]. left. reflexivity. }
    unfold Get_default.
    destruct (_ <? _).
    + destruct (factory c) as [f|]; [|discriminate].
      destruct (f (factory_calls w)) as [v0 e0] eqn:Hf.
      intros [= <- -> _ _]. right. exists f, (factory_calls w). auto.
    + destruct (NewTicker _ _); [|discriminate].
      destruct (is_closed (reqQueue c)); discriminate.
  - destruct (_ && _); [|discriminate].
    destruct (Close _ w (Ptr idleC)) as [[e0 c2] w2] eqn:E.
    apply Close_idleQueue in E as (_ & _ & Hf & _ & _).
    intros HG. apply IH in HG. rewrite Hf in HG. exact HG.
Qed.

(** A call that is refused a slot while the wait queue is full comes to
    rest in its send into the queue. *)
Lemma Get_parks_behind_a_full_queue c w :
  buf (idleQueue c) = [] -> is_closed (idleQueue c) = false ->
  is_closed (reqQueue c) = false ->
  maxActiveConn c <= AddInt32 (openingConn c) 1 ->
  0 < waitTimeOut c ->
  0 <= cap (reqQueue c) <= Z.of_nat (length (buf (reqQueue c))) ->
  exists req tk c' w',
    Get c w = GetPark req tk c' w' /\
    in_send (reqQueue c') (req_idleConn req) = true.
Proof.
  intros Hb Hc Hrc Hge Hw Hfull. unfold Get. rewrite Hb. simpl. rewrite Hc.
  unfold Get_default.
  destruct (Z.ltb_spec (AddInt32 (openingConn c) 1) (maxActiveConn c)); [lia|].
  unfold NewTicker. destruct (Z.leb_spec (waitTimeOut c) 0); [lia|].
  rewrite Hrc. do 4 eexists. split; [reflexivity|].
  unfold in_send. simpl.
  apply existsb_exists. exists (mkConnReq false (next_chan w)).
  split; [|apply Nat.eqb_refl].
  apply list_elem_of_In.
  rewrite drop_app_le by lia.
  apply elem_of_app. right. apply list_elem_of_singleton. reflexivity.
Qed.

(** C10, the claim as stated, fails: a Get whose Factory call fails returns
    Factory's error, which is neither the time-out nor the closed pool. *)
Lemma Get_fails_with_the_error_of_Factory :
  exists c' w',
    Get (Ex.pool_of [] 2 Ex.dial_refused 0 50 3 0) Ex.boot
      = GetReturn Nil (Some (Foreign "refused")) c' w' /\
    ~ timeout_or_closed (Foreign "refused").
Proof.
  do 2 eexists. split; [vm_compute; reflexivity|].
  intros [H|H]; discriminate H.
Qed.

(** C10, amended.  In any step of the program:
    - a Get that returns an error returns the time-out error, the
      closed-pool error, or the error that a call of Factory returned,
      together with the value of that call; there is no error for a
      saturated pool;
    - a Get that is refused a slot while the wait queue is full comes to
      rest in its send into the queue;
    - a Get that is in that send stays there whatever the step is and
      whatever the clock says: the ticker is looked at only after the send. *)
Theorem Get_fails_three_ways_and_waits_for_the_queue s s' j :
  step s s' ->
  (forall v e,
     threads s' !! j = Some (GetDone v (Some e)) ->
     threads s !! j <> Some (GetDone v (Some e)) ->
     timeout_or_closed e \/
     exists f k, factory (pool s) = Some f /\ f k = (v, Some e)) /\
  (threads s !! j = Some GetCall ->
   threads s' !! j <> Some GetCall ->
   buf (idleQueue (pool s)) = [] -> is_closed (idleQueue (pool s)) = false ->
   is_closed (reqQueue (pool s)) = false ->
   maxActiveConn (pool s) <= AddInt32 (openingConn (pool s)) 1 ->
   0 < waitTimeOut (pool s) ->
   0 <= cap (reqQueue (pool s))
     <= Z.of_nat (length (buf (reqQueue (pool s)))) ->
   exists req tk,
     threads s' !! j = Some (GetWait req tk) /\
     in_send (reqQueue (pool s')) (req_idleConn req) = true) /\
  (forall req tk,
     threads s !! j = Some (GetWait req tk) ->
     in_send (reqQueue (pool s)) (req_idleConn req) = true ->
     threads s' !! j = Some (GetWait req tk)).
Proof.
  intros Hstep.
  destruct Hstep as [s k s' Hrun|s k s' Ht|s i k s' Hh|s d Hpos|s g Hg].
  - (* a goroutine runs *)
    unfold run in Hrun.
    destruct (decide (k = j)) as [->|Hne].
    + destruct (threads s !! j) as [[| | |conn| | |]|] eqn:Hj; try discriminate;
        injection Hrun as <-; pose proof (lookup_lt_Some _ _ _ Hj) as Hlen.
      * split; [|split].
        -- intros v e Hd _. unfold Get in Hd.
           destruct (Get_loop _ _ _) as [v0 e0 c w|req tk c w|] eqn:HG;
             simpl in Hd; rewrite list_lookup_insert_eq in Hd by exact Hlen;
             try discriminate.
           injection Hd as -> ->. apply Get_loop_error in HG as [->|HG].
           ++ left. right. reflexivity.
           ++ right. exact HG.
        -- intros _ _ Hb Hc Hrc Hge Hw Hfull.
           destruct (Get_parks_behind_a_full_queue (pool s) (world s))
             as (req & tk & c' & w' & HG & Hin); try assumption.
           rewrite HG. simpl. exists req, tk.
           split; [apply list_lookup_insert_eq; exact Hlen|exact Hin].
        -- intros req tk Hd. discriminate Hd.
      * split; [|split].
        -- intros v e Hd _.
           destruct (Put _ _ _); simpl in Hd;
             rewrite list_lookup_insert_eq in Hd by exact Hlen; discriminate.
        -- intros Hd. discriminate Hd.
        -- intros req tk Hd. discriminate Hd.
    + assert (Hsame : threads s' !! j = threads s !! j).
      { destruct (threads s !! k) as [[| | |conn| | |]|]; try discriminate;
          injection Hrun as <-.
        - destruct (Get _ _); simpl; apply list_lookup_insert_ne; exact Hne.
        - destruct (Put _ _ _); simpl; apply list_lookup_insert_ne; exact Hne. }
      rewrite Hsame. split; [|split].
      * intros v e Hd Hn. contradiction.
      * intros Hd Hn. contradiction.
      * intros req tk Hd _. exact Hd.
  - (* a ticker fires *)
    unfold timeout in Ht.
    destruct (threads s !! k) as [[|r tk0| | | | |]|] eqn:Hk; try discriminate.
    destruct (in_send (reqQueue (pool s)) (req_idleConn r)) eqn:Hin;
      [rewrite andb_false_r in Ht; discriminate|].
    destruct (fired _ _); [|discriminate]. injection Ht as <-. simpl.
    pose proof (lookup_lt_Some _ _ _ Hk) as Hlen.
    destruct (decide (k = j)) as [->|Hne].
    + rewrite list_lookup_insert_eq by exact Hlen. split; [|split].
      * intros v e [= _ <-] _. left. left. reflexivity.
      * intros Hd. rewrite Hk in Hd. discriminate Hd.
      * intros req tk Hd Hin'. rewrite Hk in Hd. injection Hd as <- <-.
        rewrite Hin in Hin'. discriminate Hin'.
    + rewrite list_lookup_insert_ne by exact Hne. split; [|split].
      * intros v e Hd Hn. contradiction.
      * intros Hd Hn. contradiction.
      * intros req tk Hd _. exact Hd.
  - (* a hand-off *)
    unfold handoff in Hh.
    destruct (threads s !! i) as [[| | | |r conn| |]|] eqn:Hi; try discriminate.
    destruct (threads s !! k) as [[|r' tk0| | | | |]|] eqn:Hk; try discriminate.
    destruct (in_send (reqQueue (pool s)) (req_idleConn r')) eqn:Hin;
      [rewrite andb_false_r in Hh; discriminate|].
    destruct (Nat.eqb _ _); [|discriminate]. injection Hh as <-. simpl.
    pose proof (lookup_lt_Some _ _ _ Hi) as Hleni.
    pose proof (lookup_lt_Some _ _ _ Hk) as Hlenk.
    destruct (decide (i = j)) as [->|Hij].
    + rewrite list_lookup_insert_eq by (rewrite length_insert; exact Hleni).
      split; [|split].
      * intros v e Hd. discriminate Hd.
      * intros Hd. rewrite Hi in Hd. discriminate Hd.
      * intros req tk Hd. rewrite Hi in Hd. discriminate Hd.
    + rewrite list_lookup_insert_ne by exact Hij.
      destruct (decide (k = j)) as [->|Hkj].
      * rewrite list_lookup_insert_eq by exact Hlenk. split; [|split].
        -- intros v e Hd. discriminate Hd.
        -- intros Hd. rewrite Hk in Hd. discriminate Hd.
        -- intros req tk Hd Hin'. rewrite Hk in Hd. injection Hd as <- <-.
           rewrite Hin in Hin'. discriminate Hin'.
      * rewrite list_lookup_insert_ne by exact Hkj. split; [|split].
        -- intros v e Hd Hn. contradiction.
        -- intros Hd Hn. contradiction.
        -- intros req tk Hd _. exact Hd.
  - (* time goes by *)
    simpl. split; [|split].
    + intros v e Hd Hn. contradiction.
    + intros Hd Hn. contradiction.
    + intros req tk Hd _. exact Hd.
  - (* another call starts *)
    simpl. split; [|split].
    + intros v e Hd Hn.
      apply lookup_app_Some in Hd as [Hd|[_ Hd]]; [contradiction|].
      apply list_lookup_singleton_Some in Hd as [_ ->]. discriminate Hg.
    + intros Hd Hn. exfalso. apply Hn. apply lookup_app_l_Some. exact Hd.
    + intros req tk Hd _. apply lookup_app_l_Some. exact Hd.
Qed.

(** [Get_fails_three_ways_and_waits_for_the_queue] at work: a Get whose
    Factory refuses; and a Get that finds the pool saturated (MaxCap 1) and
    the wait queue of one taken, which parks in its send and is still there
    after the clock has gone past its 50 ns. *)
Lemma Get_fails_three_ways_and_waits_for_the_queue_witness :
  (let s := mkSystem (Ex.pool_of [] 2 Ex.dial_refused 0 50 3 0) Ex.boot [GetCall] in
   exists s',
     run s 0 = Some s' /\
     threads s' !! 0%nat = Some (GetDone Nil (Some (Foreign "refused"))) /\
     (timeout_or_closed (Foreign "refused") \/
      exists f k, factory (pool s) = Some f /\
                  f k = (Nil, Some (Foreign "refused")))) /\
  (let c := mkPool (mkChan [] 1 false) (Some Ex.dial) (Some Ex.hang_up)
              (mkChan [mkConnReq false 0] 1 false) 0 50 1 1 in
   let s := mkSystem c (mkWorld 0 1 [] 1)
              [GetWait (mkConnReq false 0) (mkTicker 0 50); GetCall] in
   exists s' req tk,
     run s 1 = Some s' /\
     threads s' !! 1%nat = Some (GetWait req tk) /\
     in_send (reqQueue (pool s')) (req_idleConn req) = true /\
     fired tk (clock (world (tick s' 100))) = true /\
     threads (tick s' 100) !! 1%nat = Some (GetWait req tk)).
Proof.
  split.
  - intros s. eexists. split; [reflexivity|]. split; [reflexivity|].
    eapply (Get_fails_three_ways_and_waits_for_the_queue s _ 0%nat).
    + apply step_run with (i := 0%nat). reflexivity.
    + reflexivity.
    + discriminate.
  - intros c s.
    destruct (run s 1) as [s'|] eqn:Hrun; [|discriminate Hrun].
    destruct (Get_fails_three_ways_and_waits_for_the_queue s s' 1%nat
                (step_run s 1%nat s' Hrun)) as (_ & Hpark & _).
    vm_compute in Hrun. injection Hrun as <-.
    destruct Hpark as (req & tk & Hth & Hin);
      try (vm_compute; first [reflexivity | discriminate | intuition discriminate]).
    eexists. exists req, tk. split; [reflexivity|].
    split; [exact Hth|]. split; [exact Hin|].
    vm_compute in Hth. injection Hth as <- <-.
    split; [reflexivity|].
    match goal with |- threads (tick ?s1 100) !! _ = _ =>
      destruct (Get_fails_three_ways_and_waits_for_the_queue s1 (tick s1 100) 1%nat
                  (step_tick s1 100 eq_refl)) as (_ & _ & Hstay)
    end.
    apply Hstay; reflexivity.
Defined.

(** ** The race between lines 139 and 147 *)

(** A call that has returned stays returned. *)
Lemma step_GetDone_stays s s' j v e :
  step s s' ->
  threads s !! j = Some (GetDone v e) ->
  threads s' !! j = Some (GetDone v e).
Proof.
  intros Hstep Hj.
  destruct Hstep as [s k s' Hrun|s k s' Ht|s i k s' Hh|s d Hd|s g Hg].
  - destruct (decide (k = j)) as [->|Hne].
    { unfold run in Hrun. rewrite Hj in Hrun. discriminate. }
    unfold run in Hrun.
    destruct (threads s !! k) as [[| | |conn| | |]|]; try discriminate;
      injection Hrun as <-.
    + destruct (Get _ _); simpl; rewrite list_lookup_insert_ne by exact Hne;
        exact Hj.
    + destruct (Put _ _ _); simpl; rewrite list_lookup_insert_ne by exact Hne;
        exact Hj.
  - destruct (decide (k = j)) as [->|Hne].
    { unfold timeout in Ht. rewrite Hj in Ht. discriminate. }
    unfold timeout in Ht.
    destruct (threads s !! k) as [[|r tk| | | | |]|]; try discriminate.
    destruct (_ && _); [|discriminate]. injection Ht as <-. simpl.
    rewrite list_lookup_insert_ne by exact Hne. exact Hj.
  - unfold handoff in Hh.
    destruct (threads s !! i) as [[| | | |r conn| |]|] eqn:Hi; try discriminate.
    destruct (threads s !! k) as [[|r' tk| | | | |]|] eqn:Hk; try discriminate.
    destruct (_ && _); [|discriminate]. injection Hh as <-. simpl.
    assert (i <> j) by (intros ->; rewrite Hj in Hi; discriminate Hi).
    assert (k <> j) by (intros ->; rewrite Hj in Hk; discriminate Hk).
    rewrite !list_lookup_insert_ne by assumption. exact Hj.
  - exact Hj.
  - simpl. apply lookup_app_l_Some. exact Hj.
Qed.

Lemma steps_GetDone_stays s s' j v e :
  steps s s' ->
  threads s !! j = Some (GetDone v e) ->
  threads s' !! j = Some (GetDone v e).
Proof.
  intros Hsteps. induction Hsteps as [s|s s1 s' Hstep _ IH]; intros Hj.
  - exact Hj.
  - apply IH. eapply step_GetDone_stays; eassumption.
Qed.

(** C7 (the code departs from the claim).  A pool with MaxCap 2, wait
    queue of 1 and WaitTimeout 50 ns.  One caller's Get makes [Res 0]; a
    second caller's Get is refused a slot, puts its request in the wait
    queue and waits.  While it waits, with its ticker not yet due, the first
    caller calls Put with [Res 0]: Put finds the request of this live
    waiter, not marked abandoned, takes it from the queue and comes to the
    send of line 147.  Before the hand-off the 50 ns are over and the ticker
    of the waiter fires: the waiting Get returns the time-out error, not the
    resource, and the Put stays in its send in every run from there on.  The
    claim has the resource delivered to that waiter, whose Get returns it. *)
Theorem Put_finds_a_live_waiter_that_times_out_first :
  exists c0 w0 s0 s1 s req ticker,
    NewPool Ex.two_callers Ex.boot = NewPoolOk c0 w0 /\
    steps (mkSystem c0 w0 [GetCall; GetCall]) s0 /\
    threads s0 !! 0%nat = Some (GetDone (Res 0) None) /\
    threads s0 !! 1%nat = Some (GetWait req ticker) /\
    threads s0 !! 2%nat = Some (PutCall (Res 0)) /\
    fired ticker (clock (world s0)) = false /\
    buf (reqQueue (pool s0)) = [req] /\ abandon req = false /\
    run s0 2 = Some s1 /\
    threads s1 !! 1%nat = Some (GetWait req ticker) /\
    threads s1 !! 2%nat = Some (PutSend req (Res 0)) /\
    buf (reqQueue (pool s1)) = [] /\
    steps s1 s /\
    buf (idleQueue (pool s)) = [] /\
    forall s', steps s s' ->
      threads s' !! 1%nat = Some (GetDone Nil (Some GetConnectionTimeout)) /\
      threads s' !! 2%nat = Some (PutSend req (Res 0)).
Proof.
  eexists _, _, _, _, _, (mkConnReq false 0), (mkTicker 0 50).
  split; [vm_compute; reflexivity|].
  split.
  { eapply rtc_l; [apply step_run with (i := 0%nat); vm_compute; reflexivity|].
    eapply rtc_l; [apply step_run with (i := 1%nat); vm_compute; reflexivity|].
    eapply rtc_l; [apply step_go with (g := PutCall (Res 0)); reflexivity|].
    apply rtc_refl. }
  do 6 (split; [reflexivity|]).
  split; [vm_compute; reflexivity|].
  do 3 (split; [reflexivity|]).
  split.
  { eapply rtc_l; [apply step_tick with (d := 50); lia|].
    eapply rtc_l; [apply step_timeout with (j := 1%nat); vm_compute; reflexivity|].
    apply rtc_refl. }
  split; [reflexivity|].
  intros s' Hsteps. split.
  - eapply steps_GetDone_stays; [exact Hsteps|reflexivity].
  - eapply steps_PutSend_stays; [exact Hsteps|reflexivity|].
    split; [simpl; lia|].
    intros [|[|[|j]]] r tk Hl; discriminate Hl.
Qed.

(** * More of the code *)

(** ** NewPool: the checks of lines 49-57 *)

Lemma valid_caps_test poolConfig :
  negb ((InitialCap poolConfig <=? MaxIdle poolConfig)
        && (MaxIdle poolConfig <=? MaxCap poolConfig)
        && (0 <=? InitialCap poolConfig)) = false
  <-> valid_caps poolConfig.
Proof.
  unfold valid_caps. rewrite negb_false_iff, !andb_true_iff, !Z.leb_le. tauto.
Qed.

(** What the warm-up loop has done when it gives up: Factory has failed at
    its call number [k], after [k] calls that went well, and the loop has
    called nothing since. *)
Lemma warm_up_err n f : forall c w e w',
  warm_up n f c w = NewPoolErr e w' ->
  e = InitPoolErr /\
  exists k, (k < n)%nat /\
    (forall i, (i < k)%nat -> snd (f (factory_calls w + i)%nat) = None) /\
    snd (f (factory_calls w + k)%nat) <> None /\
    factory_calls w' = S (factory_calls w + k) /\
    close_calls w' = close_calls w /\ clock w' = clock w /\
    next_chan w' = next_chan w.
Proof.
  induction n as [|n IH]; intros c w e w'; simpl; [discriminate|].
  destruct (f (factory_calls w)) as [conn [err|]] eqn:Hf.
  - intros [= <- <-]. split; [reflexivity|]. exists 0%nat.
    rewrite Nat.add_0_r, Hf. simpl.
    split; [lia|]. split; [intros i Hi; lia|]. split; [discriminate|].
    repeat split.
  - destruct (has_room _); [|discriminate].
    intros H. apply IH in H as (-> & k & Hk & Hok & Hbad & Hfc & Hcc & Hcl & Hnc).
    split; [reflexivity|]. exists (S k). simpl in *.
    split; [lia|]. split.
    { intros [|i] Hi.
      - rewrite Nat.add_0_r, Hf. reflexivity.
      - replace (factory_calls w + S i)%nat with (S (factory_calls w + i)) by lia.
        apply Hok. lia. }
    replace (factory_calls w + S k)%nat with (S (factory_calls w + k)) by lia.
    repeat split; assumption.
Qed.

(** X1.  NewPool makes its three checks in the order of the source: the
    capacities first, then Factory, then Close.  It returns InvalidCapSet
    exactly when [0 <= InitialCap <= MaxIdle <= MaxCap] fails,
    InvalidFactorySet exactly when the capacities are in order and Factory
    is nil, InvalidCloseSet exactly when the capacities are in order,
    Factory is set and Close is nil; and whenever it returns one of these
    it has called neither Factory nor Close. *)
Theorem NewPool_configuration_errors poolConfig w :
  (NewPool poolConfig w = NewPoolErr InvalidCapSet w
   <-> ~ valid_caps poolConfig) /\
  (NewPool poolConfig w = NewPoolErr InvalidFactorySet w
   <-> valid_caps poolConfig /\ Factory poolConfig = None) /\
  (NewPool poolConfig w = NewPoolErr InvalidCloseSet w
   <-> valid_caps poolConfig /\ Factory poolConfig <> None /\
       CloseF poolConfig = None) /\
  (forall e w', NewPool poolConfig w = NewPoolErr e w' ->
                e <> InitPoolErr -> w' = w).
Proof.
  pose proof (valid_caps_test poolConfig) as Hv.
  unfold NewPool.
  destruct (negb _) eqn:Hneg.
  - assert (Hnv : ~ valid_caps poolConfig).
    { intros Hc. apply Hv in Hc. discriminate Hc. }
    split; [split; [intros _; exact Hnv|reflexivity]|].
    split; [split; [discriminate|intros [Hc _]; contradiction]|].
    split; [split; [discriminate|intros [Hc _]; contradiction]|].
    intros e w' [= _ <-] _. reflexivity.
  - assert (Hval : valid_caps poolConfig) by (apply Hv; reflexivity).
    destruct (Factory poolConfig) as [f|].
    2:{ split; [split; [discriminate|intros Hc; contradiction]|].
        split; [split; [intros _; split; [exact Hval|reflexivity]|reflexivity]|].
        split; [split; [discriminate|intros (_ & Hc & _); congruence]|].
        intros e w' [= _ <-] _. reflexivity. }
    destruct (CloseF poolConfig) as [cl|].
    2:{ split; [split; [discriminate|intros Hc; contradiction]|].
        split; [split; [discriminate|intros [_ Hc]; discriminate Hc]|].
        split; [split; [intros _; repeat split; [apply Hval..|discriminate]
                       |reflexivity]|].
        intros e w' [= _ <-] _. reflexivity. }
    destruct (_ || _).
    { split; [split; [discriminate|intros Hc; contradiction]|].
      split; [split; [discriminate|intros [_ Hc]; discriminate Hc]|].
      split; [split; [discriminate|intros (_ & _ & Hc); discriminate Hc]|].
      discriminate. }
    split.
    { split; [|intros Hc; contradiction].
      intros HN. apply warm_up_err in HN as [He _]. discriminate He. }
    split.
    { split; [|intros [_ Hc]; discriminate Hc].
      intros HN. apply warm_up_err in HN as [He _]. discriminate He. }
    split.
    { split; [|intros (_ & _ & Hc); discriminate Hc].
      intros HN. apply warm_up_err in HN as [He _]. discriminate He. }
    intros e w' HN Hne. apply warm_up_err in HN as [He _]. contradiction.
Qed.

(** X2.  When NewPool returns InitPoolErr, the configuration had passed
    the three checks, and the warm-up stopped at the first call of Factory
    that failed: the calls before it, fewer than InitialCap, all went well;
    Factory has been called once more than that, Close not at all. *)
Theorem NewPool_InitPoolErr poolConfig w w' :
  NewPool poolConfig w = NewPoolErr InitPoolErr w' ->
  valid_caps poolConfig /\
  exists f k,
    Factory poolConfig = Some f /\ CloseF poolConfig <> None /\
    Z.of_nat k < InitialCap poolConfig /\
    (forall i, (i < k)%nat -> snd (f (factory_calls w + i)%nat) = None) /\
    snd (f (factory_calls w + k)%nat) <> None /\
    factory_calls w' = S (factory_calls w + k) /\
    close_calls w' = close_calls w.
Proof.
  pose proof (valid_caps_test poolConfig) as Hv.
  unfold NewPool.
  destruct (negb _) eqn:Hneg; [discriminate|].
  destruct (Factory poolConfig) as [f|]; [|discriminate].
  destruct (CloseF poolConfig) as [cl|]; [|discriminate].
  destruct (_ || _); [discriminate|].
  intros H.
  apply warm_up_err in H as (_ & k & Hk & Hok & Hbad & Hfc & Hcc & _).
  split; [apply Hv; reflexivity|].
  exists f, k. repeat split; try assumption; try discriminate.
  lia.
Qed.

(** [NewPool_InitPoolErr] on a warm-up of two whose second call fails. *)
Lemma NewPool_InitPoolErr_witness :
  exists w' f k,
    NewPool (mkConfig 2 3 2 (Some Ex.dial_once) (Some Ex.hang_up) 0 50 1) Ex.boot
      = NewPoolErr InitPoolErr w' /\
    Factory (mkConfig 2 3 2 (Some Ex.dial_once) (Some Ex.hang_up) 0 50 1) = Some f /\
    Z.of_nat k < 2 /\
    snd (f (0 + k)%nat) <> None /\
    factory_calls w' = S (0 + k) /\ close_calls w' = [].
Proof.
  destruct (NewPool (mkConfig 2 3 2 (Some Ex.dial_once) (Some Ex.hang_up) 0 50 1)
              Ex.boot) as [c w'|e w'| |] eqn:HN; try discriminate HN.
  assert (e = InitPoolErr) as -> by (vm_compute in HN; congruence).
  destruct (NewPool_InitPoolErr _ _ _ HN)
    as (_ & f & k & Hf & _ & Hk & _ & Hbad & Hfc & Hcc).
  exists w', f, k. repeat split; assumption.
Defined.

(** ** NewPool: the warm-up of lines 70-79 *)

Lemma warm_entries_length f n : forall k now,
  length (warm_entries f k n now) = n.
Proof. induction n as [|n IH]; intros k now; simpl; [|rewrite IH]; reflexivity. Qed.

Lemma warm_entries_lookup f n : forall k now i,
  (i < n)%nat ->
  warm_entries f k n now !! i = Some (mkIdleConn (fst (f (k + i)%nat)) now).
Proof.
  induction n as [|n IH]; intros k now i Hi; [lia|].
  destruct i as [|i]; simpl.
  - rewrite Nat.add_0_r. reflexivity.
  - rewrite IH by lia.
    replace (k + S i)%nat with (S k + i)%nat by lia. reflexivity.
Qed.

(** With room for them in [idleQueue] and a Factory that does not fail, the
    loop appends one entry per call. *)
Lemma warm_up_ok n f : forall c w,
  Z.of_nat (length (buf (idleQueue c))) + Z.of_nat n <= cap (idleQueue c) ->
  (forall i, (i < n)%nat -> snd (f (factory_calls w + i)%nat) = None) ->
  warm_up n f c w =
    NewPoolOk
      (set_idleQueue c
         (with_buf (idleQueue c)
            (buf (idleQueue c) ++ warm_entries f (factory_calls w) n (clock w))))
      (mkWorld (clock w) (factory_calls w + n) (close_calls w) (next_chan w)).
Proof.
  induction n as [|n IH]; intros c w Hroom Hok; simpl.
  - rewrite app_nil_r, Nat.add_0_r. destruct c as [[] ? ? ? ? ? ? ?], w.
    reflexivity.
  - pose proof (Hok 0%nat ltac:(lia)) as H0. rewrite Nat.add_0_r in H0.
    destruct (f (factory_calls w)) as [conn err] eqn:Hf. simpl in H0. subst err.
    unfold has_room.
    destruct (Z.ltb_spec (Z.of_nat (length (buf (idleQueue c)))) (cap (idleQueue c)));
      [|lia].
    rewrite IH.
    + simpl. rewrite <- app_assoc. simpl.
      replace (factory_calls w + S n)%nat with (S (factory_calls w + n)) by lia.
      reflexivity.
    + simpl. rewrite length_app. simpl. lia.
    + intros i Hi. simpl.
      replace (S (factory_calls w + i)) with (factory_calls w + S i)%nat by lia.
      apply Hok. lia.
Qed.

Lemma warm_up_not_stuck n f : forall c w,
  Z.of_nat (length (buf (idleQueue c))) + Z.of_nat n <= cap (idleQueue c) ->
  warm_up n f c w <> NewPoolStuck.
Proof.
  induction n as [|n IH]; intros c w Hroom; simpl; [discriminate|].
  destruct (f (factory_calls w)) as [conn [err|]]; [discriminate|].
  unfold has_room.
  destruct (Z.ltb_spec (Z.of_nat (length (buf (idleQueue c)))) (cap (idleQueue c)));
    [|lia].
  apply IH. simpl. rewrite length_app. simpl. lia.
Qed.

(** X3.  With capacities in order, Factory and Close set, a wait queue
    size that is not negative, and a Factory whose next InitialCap calls all
    succeed, NewPool returns a pool whose idle registry holds the results of
    those calls, one entry each, in the order of the calls; the counter is
    InitialCap, the wait queue is empty, both channels are open with
    capacities MaxIdle and WaitQueue, the settings are those of the
    configuration, Factory has been called InitialCap times and Close not at
    all.  (Nothing is said of the times the entries are stamped with.) *)
Theorem NewPool_success poolConfig w f cl :
  valid_caps poolConfig ->
  Factory poolConfig = Some f -> CloseF poolConfig = Some cl ->
  0 <= WaitQueue poolConfig ->
  (forall i, (i < Z.to_nat (InitialCap poolConfig))%nat ->
             snd (f (factory_calls w + i)%nat) = None) ->
  exists c w',
    NewPool poolConfig w = NewPoolOk c w' /\
    length (buf (idleQueue c)) = Z.to_nat (InitialCap poolConfig) /\
    (forall i, (i < Z.to_nat (InitialCap poolConfig))%nat ->
       exists idleC,
         buf (idleQueue c) !! i = Some idleC /\
         connection idleC = fst (f (factory_calls w + i)%nat)) /\
    cap (idleQueue c) = MaxIdle poolConfig /\
    is_closed (idleQueue c) = false /\
    reqQueue c = mkChan [] (WaitQueue poolConfig) false /\
    factory c = Some f /\ close c = Some cl /\
    idleTimeOut c = IdleTimeout poolConfig /\
    waitTimeOut c = WaitTimeout poolConfig /\
    maxActiveConn c = MaxCap poolConfig /\
    openingConn c = InitialCap poolConfig /\
    factory_calls w' = (factory_calls w + Z.to_nat (InitialCap poolConfig))%nat /\
    close_calls w' = close_calls w /\
    next_chan w' = next_chan w.
Proof.
  intros Hval Hf Hcl Hwq Hok.
  pose proof (proj2 (valid_caps_test poolConfig) Hval) as Hneg.
  destruct Hval as (H0 & H1 & H2).
  unfold NewPool. rewrite Hneg, Hf, Hcl.
  destruct (Z.ltb_spec (MaxIdle poolConfig) 0); [lia|].
  destruct (Z.ltb_spec (WaitQueue poolConfig) 0); [lia|]. simpl.
  rewrite warm_up_ok; [|simpl; lia|exact Hok].
  do 2 eexists. split; [reflexivity|]. simpl.
  split; [apply warm_entries_length|].
  split.
  { intros i Hi. eexists. split; [apply warm_entries_lookup; exact Hi|].
    reflexivity. }
  repeat split.
Qed.

(** [NewPool_success] on Scenario A: two idle entries, holding [Res 0] and
    [Res 1] in that order, and the counter at 2. *)
Lemma NewPool_success_witness :
  exists c w' e0 e1,
    NewPool Ex.scenarioA Ex.boot = NewPoolOk c w' /\
    buf (idleQueue c) !! 0%nat = Some e0 /\ connection e0 = Res 0 /\
    buf (idleQueue c) !! 1%nat = Some e1 /\ connection e1 = Res 1 /\
    length (buf (idleQueue c)) = 2%nat /\
    openingConn c = 2 /\ maxActiveConn c = 3 /\
    factory_calls w' = 2%nat /\ close_calls w' = [].
Proof.
  destruct (NewPool_success Ex.scenarioA Ex.boot Ex.dial Ex.hang_up)
    as (c & w' & HN & Hlen & Hent & _ & _ & _ & _ & _ & _ & _ & Hmax & Hn & Hfc & Hcc & _).
  - unfold valid_caps. simpl. lia.
  - reflexivity.
  - reflexivity.
  - simpl. lia.
  - intros i _. reflexivity.
  - destruct (Hent 0%nat ltac:(simpl; lia)) as (e0 & Hl0 & Hc0).
    destruct (Hent 1%nat ltac:(simpl; lia)) as (e1 & Hl1 & Hc1).
    exists c, w', e0, e1. repeat split; assumption.
Defined.

(** X4.  NewPool never comes to rest in the send of line 75: whatever the
    configuration and whatever Factory does, the idle registry has room for
    every entry of the warm-up. *)
Theorem NewPool_never_blocks poolConfig w :
  NewPool poolConfig w <> NewPoolStuck.
Proof.
  pose proof (valid_caps_test poolConfig) as Hv.
  unfold NewPool.
  destruct (negb _); [discriminate|].
  destruct (proj1 Hv eq_refl) as (H0 & H1 & H2).
  destruct (Factory poolConfig); [|discriminate].
  destruct (CloseF poolConfig); [|discriminate].
  destruct (_ || _); [discriminate|].
  apply warm_up_not_stuck. simpl. lia.
Qed.

(** X5.  NewPool does not check WaitQueue: in a configuration that passes
    the three checks (capacities in order, Factory and Close set), a negative
    WaitQueue makes NewPool panic in [make(chan connReq, n)] of line 63. *)
Theorem NewPool_panics_on_negative_WaitQueue poolConfig w :
  valid_caps poolConfig ->
  Factory poolConfig <> None -> CloseF poolConfig <> None ->
  WaitQueue poolConfig < 0 ->
  NewPool poolConfig w = NewPoolPanic.
Proof.
  intros Hval Hf Hcl Hwq.
  pose proof (proj2 (valid_caps_test poolConfig) Hval) as Hneg.
  unfold NewPool. rewrite Hneg.
  destruct (Factory poolConfig) as [f|]; [|congruence].
  destruct (CloseF poolConfig) as [cl|]; [|congruence].
  destruct (Z.ltb_spec (WaitQueue poolConfig) 0); [|lia].
  rewrite orb_true_r. reflexivity.
Qed.

(** [NewPool_panics_on_negative_WaitQueue] on Scenario A with a wait queue
    of -1. *)
Lemma NewPool_panics_on_negative_WaitQueue_witness :
  NewPool (mkConfig 2 3 2 (Some Ex.dial) (Some Ex.hang_up) 0 50 (-1)) Ex.boot
  = NewPoolPanic.
Proof.
  apply NewPool_panics_on_negative_WaitQueue.
  - unfold valid_caps. simpl. lia.
  - discriminate.
  - discriminate.
  - simpl. lia.
Defined.

(** ** Put: what it returns and what it touches *)

Lemma Put_default_error c w conn e c' w' :
  Put_default c w conn = PutReturn (Some e) c' w' ->
  has_room (idleQueue c) = false /\
  exists cl, close c = Some cl /\ cl conn = Some e /\
             close_calls w' = conn :: close_calls w.
Proof.
  unfold Put_default.
  destruct (is_closed (idleQueue c)); [discriminate|].
  destruct (has_room (idleQueue c)); [discriminate|].
  unfold Close. simpl.
  destruct (close c) as [cl|]; [|discriminate].
  intros [= He _ <-]. split; [reflexivity|]. exists cl. auto.
Qed.

Lemma Put_try_error q : forall c w conn e c' w',
  Put_try q c w conn = PutReturn (Some e) c' w' ->
  (e = PoolClosed /\ is_closed (reqQueue c) = true /\ w' = w) \/
  (has_room (idleQueue c) = false /\
   exists cl, close c = Some cl /\ cl conn = Some e /\
              close_calls w' = conn :: close_calls w).
Proof.
  induction q as [|r q IH]; intros c w conn e c' w'; simpl.
  - destruct (is_closed (reqQueue c)).
    + intros [= <- _ <-]. left. auto.
    + intros H. right. eapply Put_default_error. exact H.
  - destruct (abandon r); [|discriminate].
    intros H. apply IH in H. exact H.
Qed.

(** X6.  Put returns an error in three cases only: ConnectionIsNull for a
    nil connection, with the pool untouched; PoolClosed when the wait queue
    has been closed; and, when the idle registry has no room, whatever the
    caller's Close function returned for this connection. *)
Theorem Put_errors c w conn e c' w' :
  Put c w conn = PutReturn (Some e) c' w' ->
  (is_nil conn = true /\ e = ConnectionIsNull /\ c' = c /\ w' = w) \/
  (is_nil conn = false /\ e = PoolClosed /\
   is_closed (reqQueue c) = true /\ w' = w) \/
  (is_nil conn = false /\ has_room (idleQueue c) = false /\
   exists cl, close c = Some cl /\ cl conn = Some e /\
              close_calls w' = conn :: close_calls w).
Proof.
  unfold Put. destruct (is_nil conn).
  - intros [= <- <- <-]. left. auto.
  - intros H. apply Put_try_error in H as [H|H]; right; [left|right]; tauto.
Qed.

(** [Put_errors] on its three cases: a nil connection; a closed wait
    queue; a full idle registry and a Close that fails. *)
Lemma Put_errors_witness :
  (exists c' w',
     Put (Ex.pool_of [] 1 Ex.dial 0 50 3 1) Ex.boot Nil
       = PutReturn (Some ConnectionIsNull) c' w' /\
     c' = Ex.pool_of [] 1 Ex.dial 0 50 3 1 /\ w' = Ex.boot) /\
  (let c := mkPool (mkChan [] 1 false) (Some Ex.dial) (Some Ex.hang_up)
              (mkChan [] 1 true) 0 50 3 1 in
   exists c' w',
     Put c Ex.boot (Res 0) = PutReturn (Some PoolClosed) c' w' /\ w' = Ex.boot) /\
  (let c := mkPool (mkChan [] 0 false) (Some Ex.dial)
              (Some (fun _ => Some (Foreign "reset")))
              (mkChan [] 1 false) 0 50 3 1 in
   exists c' w',
     Put c Ex.boot (Res 0) = PutReturn (Some (Foreign "reset")) c' w' /\
     close_calls w' = [Res 0]).
Proof.
  split; [|split].
  - do 2 eexists. split; [reflexivity|].
    destruct (Put_errors (Ex.pool_of [] 1 Ex.dial 0 50 3 1) Ex.boot Nil
                ConnectionIsNull _ _ eq_refl)
      as [(_ & _ & Hc & Hw)|[(Hn & _)|(Hn & _)]];
      [split; assumption|discriminate Hn|discriminate Hn].
  - intros c. do 2 eexists. split; [reflexivity|].
    destruct (Put_errors c Ex.boot (Res 0) PoolClosed _ _ eq_refl)
      as [(Hn & _)|[(_ & _ & _ & Hw)|(_ & Hr & _)]];
      [discriminate Hn|exact Hw|discriminate Hr].
  - intros c. do 2 eexists. split; [reflexivity|].
    destruct (Put_errors c Ex.boot (Res 0) (Foreign "reset") _ _ eq_refl)
      as [(Hn & _)|[(_ & He & _)|(_ & _ & cl & _ & _ & Hcc)]];
      [discriminate Hn|discriminate He|exact Hcc].
Defined.

Lemma Put_default_touches c w conn :
  match Put_default c w conn with
  | PutReturn _ c' w' | PutPark _ _ c' w' =>
      reqQueue c' = reqQueue c /\
      factory_calls w' = factory_calls w /\ clock w' = clock w /\
      ((buf (idleQueue c') = buf (idleQueue c) ++ [mkIdleConn conn (clock w)] /\
        has_room (idleQueue c) = true /\
        close_calls w' = close_calls w /\ openingConn c' = openingConn c) \/
       (buf (idleQueue c') = buf (idleQueue c) /\
        has_room (idleQueue c) = false /\
        (close_calls w' = close_calls w \/
         close_calls w' = conn :: close_calls w)))
  | PutPanic => is_closed (idleQueue c) = true
  end.
Proof.
  unfold Put_default.
  destruct (is_closed (idleQueue c)); [reflexivity|].
  destruct (has_room (idleQueue c)).
  - simpl. repeat split. left. repeat split.
  - unfold Close. simpl. destruct (close c); simpl; repeat split; right; auto.
Qed.

Lemma Put_try_touches q : forall c w conn,
  buf (reqQueue c) = q ->
  match Put_try q c w conn with
  | PutReturn _ c' w' | PutPark _ _ c' w' =>
      (exists dropped, q = dropped ++ buf (reqQueue c')) /\
      factory_calls w' = factory_calls w /\ clock w' = clock w /\
      ((buf (idleQueue c') = buf (idleQueue c) ++ [mkIdleConn conn (clock w)] /\
        has_room (idleQueue c) = true /\
        close_calls w' = close_calls w /\ openingConn c' = openingConn c) \/
       (buf (idleQueue c') = buf (idleQueue c) /\
        (close_calls w' = close_calls w \/
         close_calls w' = conn :: close_calls w)))
  | PutPanic => is_closed (idleQueue c) = true
  end.
Proof.
  induction q as [|r q IH]; intros c w conn Hb; simpl.
  - destruct (is_closed (reqQueue c)).
    { split; [exists []; rewrite Hb; reflexivity|]. repeat split. right. auto. }
    pose proof (Put_default_touches c w conn) as HD.
    destruct (Put_default c w conn) as [e c' w'|r v c' w'|]; [| |exact HD];
      destruct HD as (Hrq & Hfc & Hcl & HD);
      (split; [exists []; rewrite Hrq, Hb; reflexivity|]);
      (split; [exact Hfc|]); (split; [exact Hcl|]);
      (destruct HD as [HD|(Hi & _ & HD)]; [left; exact HD|right; auto]).
  - destruct (abandon r).
    + specialize (IH (set_reqQueue c (with_buf (reqQueue c) q)) w conn eq_refl).
      destruct (Put_try q _ w conn) as [e c' w'|r' v c' w'|]; [| |exact IH];
        destruct IH as ([dropped Hd] & Hrest);
        (split; [exists (r :: dropped); simpl; rewrite <- Hd; reflexivity
                |exact Hrest]).
    + split; [exists [r]; reflexivity|]. repeat split. right. auto.
Qed.

(** X7.  What a call of Put can do to the pool and to the rest of the
    program.  It never calls Factory and never reads more of the wait queue
    than a prefix, which it removes.  Either it appends one entry to the idle
    registry - the connection it was given, stamped with the present time -
    and then it has called no Close and left the counter alone; or it leaves
    the idle registry as it was and has called Close at most once, on the
    connection it was given.  It panics only on a closed idle registry. *)
Theorem Put_touches c w conn :
  match Put c w conn with
  | PutReturn _ c' w' | PutPark _ _ c' w' =>
      (exists dropped, buf (reqQueue c) = dropped ++ buf (reqQueue c')) /\
      factory_calls w' = factory_calls w /\ clock w' = clock w /\
      ((buf (idleQueue c') = buf (idleQueue c) ++ [mkIdleConn conn (clock w)] /\
        has_room (idleQueue c) = true /\
        close_calls w' = close_calls w /\ openingConn c' = openingConn c) \/
       (buf (idleQueue c') = buf (idleQueue c) /\
        (close_calls w' = close_calls w \/
         close_calls w' = conn :: close_calls w)))
  | PutPanic => is_closed (idleQueue c) = true
  end.
Proof.
  unfold Put. destruct (is_nil conn).
  - split; [exists []; reflexivity|]. repeat split. right. auto.
  - apply Put_try_touches. reflexivity.
Qed.

(** ** Get: the entries it passes over *)




(** ** Get: the refusal of lines 107-117 *)

(** X9.  A Get that finds nothing idle and is refused a slot changes
    nothing in the pool but the wait queue: the counter is back at its value
    (the increment of line 103 and the decrement of line 108 cancel), no
    Factory or Close call is made, and the request it appends to the queue is
    not marked abandoned, carries a channel made for this call, and its
    ticker runs from now for WaitTimeout. *)
Theorem Get_refused_changes_only_the_wait_queue c w :
  buf (idleQueue c) = [] -> is_closed (idleQueue c) = false ->
  is_closed (reqQueue c) = false ->
  int32 (openingConn c) ->
  maxActiveConn c <= AddInt32 (openingConn c) 1 ->
  0 < waitTimeOut c ->
  Get c w =
    GetPark (mkConnReq false (next_chan w)) (mkTicker (clock w) (waitTimeOut c))
      (set_reqQueue c
         (with_buf (reqQueue c)
            (buf (reqQueue c) ++ [mkConnReq false (next_chan w)])))
      (made_chan w).
Proof.
  intros Hb Hc Hrc Hi Hge Hw. unfold Get. rewrite Hb. simpl. rewrite Hc.
  unfold Get_default.
  destruct (Z.ltb_spec (AddInt32 (openingConn c) 1) (maxActiveConn c)); [lia|].
  unfold NewTicker. destruct (Z.leb_spec (waitTimeOut c) 0); [lia|].
  rewrite Hrc. f_equal.
  unfold set_reqQueue, set_openingConn. simpl.
  rewrite AddInt32_undo, wrap32_small by exact Hi. reflexivity.
Qed.

(** [Get_refused_changes_only_the_wait_queue] on a pool with MaxCap 1 and
    the counter at 1. *)
Lemma Get_refused_changes_only_the_wait_queue_witness :
  let c := Ex.pool_of [] 1 Ex.dial 0 50 1 1 in
  exists c',
    Get c (mkWorld 7 1 [] 3) = GetPark (mkConnReq false 3) (mkTicker 7 50) c'
                                 (mkWorld 7 1 [] 4) /\
    openingConn c' = 1 /\ buf (reqQueue c') = [mkConnReq false 3] /\
    idleQueue c' = idleQueue c.
Proof.
  intros c. eexists. split.
  - apply (Get_refused_changes_only_the_wait_queue c (mkWorld 7 1 [] 3));
      try reflexivity.
    + unfold int32. simpl. lia.
    + vm_compute. discriminate.
  - repeat split.
Defined.

(** ** Put followed by Get *)

Lemma Put_into_empty_registry c w conn :
  quiet c -> buf (idleQueue c) = [] -> 0 < cap (idleQueue c) ->
  is_nil conn = false ->
  Put c w conn =
    PutReturn None
      (set_idleQueue c (with_buf (idleQueue c) [mkIdleConn conn (clock w)])) w.
Proof.
  intros (Hrq & Hrc & Hic & _) Hb Hcap Hn.
  unfold Put. rewrite Hn, Hrq. simpl. rewrite Hrc.
  unfold Put_default. rewrite Hic. unfold has_room. rewrite Hb. simpl.
  change (Z.of_nat 0) with 0.
  destruct (Z.ltb_spec 0 (cap (idleQueue c))); [reflexivity|lia].
Qed.

(** X10.  In a quiet pool with an empty idle registry of capacity at least
    one, Put stores the connection, and a Get that follows within
    IdleTimeout (or at any time, when IdleTimeout is not positive) takes it
    out again: what Get returns is the entry that holds the connection and
    the time of the Put, and the pool is exactly as it was before the Put.
    No Factory or Close call is made. *)
Theorem Put_then_Get_gives_the_connection_back c w conn d :
  quiet c -> buf (idleQueue c) = [] -> 0 < cap (idleQueue c) ->
  is_nil conn = false ->
  idleTimeOut c <= 0 \/ d <= idleTimeOut c ->
  exists c1,
    Put c w conn = PutReturn None c1 w /\
    Get c1 (advance w d)
      = GetReturn (Ptr (mkIdleConn conn (clock w))) None c (advance w d).
Proof.
  intros Hq Hb Hcap Hn Hd.
  eexists. split; [apply Put_into_empty_registry; assumption|].
  rewrite Get_idle_hit with (idleC := mkIdleConn conn (clock w)) (q := []).
  - f_equal. destruct c as [[b k cl] ? ? ? ? ? ? ?]. simpl in Hb. subst b.
    reflexivity.
  - reflexivity.
  - unfold timed_out. simpl.
    destruct (Z.ltb_spec 0 (idleTimeOut c)); [|reflexivity].
    destruct (Z.ltb_spec (idleTimeOut c) (clock w + d - clock w)); [lia|reflexivity].
Qed.

(** [Put_then_Get_gives_the_connection_back], 30 ns apart with an
    IdleTimeout of 40 ns. *)
Lemma Put_then_Get_gives_the_connection_back_witness :
  let c := Ex.pool_of [] 2 Ex.dial 40 50 3 1 in
  exists c1,
    Put c Ex.boot (Res 0) = PutReturn None c1 Ex.boot /\
    Get c1 (advance Ex.boot 30)
      = GetReturn (Ptr (mkIdleConn (Res 0) 0)) None c (advance Ex.boot 30).
Proof.
  intros c.
  apply (Put_then_Get_gives_the_connection_back c Ex.boot (Res 0) 30).
  - repeat split; vm_compute; congruence.
  - reflexivity.
  - reflexivity.
  - reflexivity.
  - right. simpl. lia.
Defined.

(** X11.  Expiry.  In a quiet pool with an empty idle registry of capacity
    at least one and a positive IdleTimeout, a connection that Put has stored
    and that has stayed there for longer than IdleTimeout is not handed out
    by the next Get: Get calls Close on the entry, takes one off the counter,
    and goes on as on an empty registry. *)
Theorem Put_then_late_Get_closes_the_entry c w conn d cl :
  quiet c -> buf (idleQueue c) = [] -> 0 < cap (idleQueue c) ->
  is_nil conn = false ->
  close c = Some cl ->
  0 < idleTimeOut c < d ->
  exists c1,
    Put c w conn = PutReturn None c1 w /\
    Get c1 (advance w d)
      = Get (set_openingConn c (AddInt32 (openingConn c) (-1)))
            (called_close (advance w d) (Ptr (mkIdleConn conn (clock w)))).
Proof.
  intros Hq Hb Hcap Hn Hcl Hd.
  eexists. split; [apply Put_into_empty_registry; assumption|].
  rewrite Get_idle_expired
    with (idleC := mkIdleConn conn (clock w)) (q := []) (cl := cl).
  - f_equal. destruct c as [[b k cd] ? ? ? ? ? ? ?]. simpl in Hb. subst b.
    reflexivity.
  - reflexivity.
  - unfold timed_out. simpl.
    destruct (Z.ltb_spec 0 (idleTimeOut c)); [|lia].
    destruct (Z.ltb_spec (idleTimeOut c) (clock w + d - clock w)); [reflexivity|lia].
  - exact Hcl.
Qed.

(** [Put_then_late_Get_closes_the_entry], 41 ns apart with an IdleTimeout
    of 40 ns: the Get closes the entry and makes a new connection. *)
Lemma Put_then_late_Get_closes_the_entry_witness :
  let c := Ex.pool_of [] 2 Ex.dial 40 50 3 1 in
  exists c1 c2 w2,
    Put c (mkWorld 0 1 [] 0) (Res 0) = PutReturn None c1 (mkWorld 0 1 [] 0) /\
    Get c1 (advance (mkWorld 0 1 [] 0) 41) = GetReturn (Res 1) None c2 w2 /\
    close_calls w2 = [Ptr (mkIdleConn (Res 0) 0)] /\
    openingConn c2 = 1 /\ buf (idleQueue c2) = [].
Proof.
  intros c.
  destruct (Put_then_late_Get_closes_the_entry c (mkWorld 0 1 [] 0) (Res 0) 41
              Ex.hang_up) as (c1 & HP & HG).
  - repeat split; vm_compute; congruence.
  - reflexivity.
  - reflexivity.
  - reflexivity.
  - reflexivity.
  - simpl. lia.
  - exists c1. do 2 eexists. split; [exact HP|].
    split; [rewrite HG; vm_compute; reflexivity|]. repeat split.
Defined.

(** ** What no run of the program changes *)

Lemma Get_loop_settings q : forall c w,
  match Get_loop q c w with
  | GetReturn _ _ c' _ | GetPark _ _ c' _ => settings c' = settings c
  | GetPanic => True
  end.
Proof.
  induction q as [|idleC q IH]; intros c w; simpl.
  - destruct (is_closed (idleQueue c)); [reflexivity|].
    unfold Get_default.
    destruct (_ <? _).
    + destruct (factory c) as [f|]; [|exact I]. destruct (f _); reflexivity.
    + destruct (NewTicker _ _); [|exact I].
      destruct (is_closed (reqQueue c)) eqn:E; [exact I|].
      unfold settings. simpl. rewrite E. reflexivity.
  - destruct (_ && _); [|reflexivity].
    unfold Close. simpl.
    destruct (close c) eqn:E.
    + match goal with |- context [Get_loop q ?c' ?w'] => specialize (IH c' w') end.
      destruct (Get_loop q _ _); try exact I; rewrite IH;
        unfold settings; simpl; rewrite E; reflexivity.
    + match goal with |- context [Get_loop q ?c' ?w'] => specialize (IH c' w') end.
      destruct (Get_loop q _ _); try exact I; rewrite IH;
        unfold settings; simpl; rewrite E; reflexivity.
Qed.

Lemma Put_try_settings q : forall c w conn,
  match Put_try q c w conn with
  | PutReturn _ c' _ | PutPark _ _ c' _ => settings c' = settings c
  | PutPanic => True
  end.
Proof.
  induction q as [|r q IH]; intros c w conn; simpl.
  - destruct (is_closed (reqQueue c)); [reflexivity|].
    unfold Put_default.
    destruct (is_closed (idleQueue c)) eqn:E; [exact I|].
    destruct (has_room _).
    + unfold settings. simpl. rewrite E. reflexivity.
    + unfold Close. simpl. destruct (close c) eqn:Ec;
        unfold settings; simpl; rewrite ?Ec, ?E; reflexivity.
  - destruct (abandon r); [|reflexivity].
    specialize (IH (set_reqQueue c (with_buf (reqQueue c) q)) w conn).
    destruct (Put_try q _ w conn); try exact I; rewrite IH; reflexivity.
Qed.

Lemma step_settings s s' :
  step s s' -> settings (pool s') = settings (pool s).
Proof.
  intros Hstep.
  destruct Hstep as [s i s' Hrun|s j s' Ht|s i j s' Hh|s d Hd|s g Hg];
    try reflexivity.
  - unfold run in Hrun.
    destruct (threads s !! i) as [[| | |conn| | |]|]; try discriminate;
      injection Hrun as <-.
    + pose proof (Get_loop_settings (buf (idleQueue (pool s))) (pool s) (world s))
        as HG. unfold Get.
      destruct (Get_loop _ _ _); simpl; first [exact HG|reflexivity].
    + unfold Put. destruct (is_nil conn); [reflexivity|].
      pose proof (Put_try_settings (buf (reqQueue (pool s))) (pool s) (world s) conn)
        as HP.
      destruct (Put_try _ _ _ _); simpl; first [exact HP|reflexivity].
  - unfold timeout in Ht.
    destruct (threads s !! j) as [[|r tk| | | | |]|]; try discriminate.
    destruct (_ && _); [|discriminate]. injection Ht as <-. reflexivity.
  - unfold handoff in Hh.
    destruct (threads s !! i) as [[| | | |r v| |]|]; try discriminate.
    destruct (threads s !! j) as [[|r' tk| | | | |]|]; try discriminate.
    destruct (_ && _); [|discriminate]. injection Hh as <-. reflexivity.
Qed.

Lemma steps_settings s s' :
  steps s s' -> settings (pool s') = settings (pool s).
Proof.
  intros Hsteps. induction Hsteps as [s|s s1 s' Hstep _ IH]; [reflexivity|].
  rewrite IH. apply step_settings. exact Hstep.
Qed.

Lemma warm_up_settings n f : forall c w c' w',
  warm_up n f c w = NewPoolOk c' w' ->
  settings c' = settings c /\ (idle_within_cap c -> idle_within_cap c').
Proof.
  induction n as [|n IH]; intros c w c' w'; simpl.
  - intros [= <- _]. auto.
  - destruct (f (factory_calls w)) as [conn [err|]]; [discriminate|].
    unfold has_room.
    destruct (Z.ltb_spec (Z.of_nat (length (buf (idleQueue c)))) (cap (idleQueue c)));
      [|discriminate].
    intros HN. apply IH in HN as [Hs Hb]. split; [rewrite Hs; reflexivity|].
    intros _. apply Hb. unfold idle_within_cap. simpl.
    rewrite length_app. simpl. lia.
Qed.

Lemma NewPool_settings poolConfig w c w' :
  NewPool poolConfig w = NewPoolOk c w' ->
  settings c =
    (Factory poolConfig, CloseF poolConfig, IdleTimeout poolConfig,
     WaitTimeout poolConfig, MaxCap poolConfig, MaxIdle poolConfig,
     WaitQueue poolConfig, false, false) /\
  idle_within_cap c.
Proof.
  pose proof (valid_caps_test poolConfig) as Hv.
  unfold NewPool.
  destruct (negb _); [discriminate|].
  destruct (proj1 Hv eq_refl) as (H0 & H1 & H2).
  destruct (Factory poolConfig) as [f|]; [|discriminate].
  destruct (CloseF poolConfig) as [cl|]; [|discriminate].
  destruct (_ || _); [discriminate|].
  intros HN. apply warm_up_settings in HN as [Hs Hb].
  split; [rewrite Hs; reflexivity|].
  apply Hb. unfold idle_within_cap. simpl. lia.
Qed.

(** X12.  Nothing that the callers do changes what NewPool has set up: in
    every state that a program reaches from a pool made by NewPool, the
    pool's Factory and Close, its two time-outs and its maximum are those of
    the configuration, the channels have the capacities MaxIdle and
    WaitQueue, and neither channel has been closed (no code closes them, so
    the branches of Get and Put that answer PoolClosed are never taken
    because of a closed channel). *)
Theorem settings_stay_as_configured poolConfig w c0 w0 gs s :
  NewPool poolConfig w = NewPoolOk c0 w0 ->
  steps (mkSystem c0 w0 gs) s ->
  factory (pool s) = Factory poolConfig /\
  close (pool s) = CloseF poolConfig /\
  idleTimeOut (pool s) = IdleTimeout poolConfig /\
  waitTimeOut (pool s) = WaitTimeout poolConfig /\
  maxActiveConn (pool s) = MaxCap poolConfig /\
  cap (idleQueue (pool s)) = MaxIdle poolConfig /\
  cap (reqQueue (pool s)) = WaitQueue poolConfig /\
  is_closed (idleQueue (pool s)) = false /\
  is_closed (reqQueue (pool s)) = false.
Proof.
  intros HN Hsteps.
  apply NewPool_settings in HN as [Hs _].
  apply steps_settings in Hsteps. simpl in Hsteps. rewrite Hs in Hsteps.
  unfold settings in Hsteps.
  injection Hsteps as -> -> -> -> -> -> -> -> ->. repeat split.
Qed.

(** ** Schedules are runs *)

Lemma exec_step m s s' : exec m s = Some s' -> step s s'.
Proof.
  destruct m as [i|j|i j|d|g]; simpl.
  - apply step_run.
  - apply step_timeout.
  - apply step_handoff.
  - destruct (Z.ltb_spec 0 d); [|discriminate].
    intros [= <-]. apply step_tick. assumption.
  - destruct (is_call g) eqn:E; [|discriminate].
    intros [= <-]. apply step_go. exact E.
Qed.

Lemma execs_steps ms : forall s s', execs ms s = Some s' -> steps s s'.
Proof.
  induction ms as [|m ms IH]; intros s s'; simpl.
  - intros [= <-]. apply rtc_refl.
  - destruct (exec m s) as [s1|] eqn:E; [|discriminate].
    intros H. eapply rtc_l; [eapply exec_step; exact E|]. apply IH. exact H.
Qed.

(** [settings_stay_as_configured] after the run [Ex.late_put]. *)
Lemma settings_stay_as_configured_witness :
  exists c0 w0 s,
    NewPool Ex.two_callers Ex.boot = NewPoolOk c0 w0 /\
    execs Ex.late_put (mkSystem c0 w0 [GetCall; GetCall]) = Some s /\
    waitTimeOut (pool s) = 50 /\ maxActiveConn (pool s) = 2 /\
    cap (idleQueue (pool s)) = 1 /\ cap (reqQueue (pool s)) = 1 /\
    is_closed (idleQueue (pool s)) = false /\
    is_closed (reqQueue (pool s)) = false.
Proof.
  destruct (NewPool Ex.two_callers Ex.boot) as [c0 w0| | |] eqn:HN;
    try discriminate HN.
  destruct (execs Ex.late_put (mkSystem c0 w0 [GetCall; GetCall])) as [s|] eqn:HE.
  2:{ vm_compute in HN. injection HN as <- <-. vm_compute in HE. discriminate HE. }
  destruct (settings_stay_as_configured Ex.two_callers Ex.boot c0 w0
              [GetCall; GetCall] s HN (execs_steps _ _ _ HE))
    as (_ & _ & _ & Hw & Hm & Hci & Hcr & Hi & Hr).
  exists c0, w0, s. repeat split; assumption.
Defined.

(** ** The idle registry stays within MaxIdle *)

Lemma settings_cap c c' :
  settings c' = settings c -> cap (idleQueue c') = cap (idleQueue c).
Proof. unfold settings. intros H. injection H. auto. Qed.

Lemma Get_loop_idle q : forall c w,
  buf (idleQueue c) = q ->
  match Get_loop q c w with
  | GetReturn _ _ c' _ | GetPark _ _ c' _ =>
      exists taken, q = taken ++ buf (idleQueue c')
  | GetPanic => True
  end.
Proof.
  induction q as [|idleC q IH]; intros c w Hb; simpl.
  - destruct (is_closed (idleQueue c)); [exists []; rewrite Hb; reflexivity|].
    unfold Get_default.
    destruct (_ <? _).
    + destruct (factory c) as [f|]; [|exact I].
      destruct (f _). exists []. simpl. rewrite Hb. reflexivity.
    + destruct (NewTicker _ _); [|exact I].
      destruct (is_closed (reqQueue c)); [exact I|].
      exists []. simpl. rewrite Hb. reflexivity.
  - destruct (_ && _); [|exists [idleC]; reflexivity].
    destruct (Close _ w (Ptr idleC)) as [[e c2] w2] eqn:E.
    apply Close_idleQueue in E as (Hi & _).
    specialize (IH c2 w2). rewrite Hi in IH. specialize (IH eq_refl).
    destruct (Get_loop q c2 w2); try exact I;
      destruct IH as [taken ->]; exists (idleC :: taken); reflexivity.
Qed.

Lemma step_idle_within_cap s s' :
  step s s' -> idle_within_cap (pool s) -> idle_within_cap (pool s').
Proof.
  intros Hstep Hb. pose proof (step_settings s s' Hstep) as Hs.
  apply settings_cap in Hs. unfold idle_within_cap in *. rewrite Hs. clear Hs.
  destruct Hstep as [s i s' Hrun|s j s' Ht|s i j s' Hh|s d Hd|s g Hg];
    try exact Hb.
  - unfold run in Hrun.
    destruct (threads s !! i) as [[| | |conn| | |]|]; try discriminate;
      injection Hrun as <-.
    + pose proof (Get_loop_idle (buf (idleQueue (pool s))) (pool s) (world s) eq_refl)
        as HG. unfold Get.
      destruct (Get_loop _ _ _); simpl; try exact Hb;
        destruct HG as [taken HG]; rewrite HG, length_app in Hb; lia.
    + unfold Put. destruct (is_nil conn); [exact Hb|].
      pose proof (Put_try_touches (buf (reqQueue (pool s))) (pool s) (world s) conn
                    eq_refl) as HP.
      destruct (Put_try _ _ _ _); simpl; try exact Hb;
        destruct HP as (_ & _ & _ & [(Hi & Hr & _)|(Hi & _)]); rewrite Hi;
        try exact Hb;
        unfold has_room in Hr; apply Z.ltb_lt in Hr;
        rewrite length_app; simpl; lia.
  - unfold timeout in Ht.
    destruct (threads s !! j) as [[|r tk| | | | |]|]; try discriminate.
    destruct (_ && _); [|discriminate]. injection Ht as <-. exact Hb.
  - unfold handoff in Hh.
    destruct (threads s !! i) as [[| | | |r v| |]|]; try discriminate.
    destruct (threads s !! j) as [[|r' tk| | | | |]|]; try discriminate.
    destruct (_ && _); [|discriminate]. injection Hh as <-. exact Hb.
Qed.

Lemma steps_idle_within_cap s s' :
  steps s s' -> idle_within_cap (pool s) -> idle_within_cap (pool s').
Proof.
  intros Hsteps. induction Hsteps as [s|s s1 s' Hstep _ IH]; intros Hb.
  - exact Hb.
  - apply IH. eapply step_idle_within_cap; eassumption.
Qed.

(** X13.  In every state that a program reaches from a pool made by
    NewPool, the idle registry holds at most MaxIdle entries: Put adds an
    entry only when there is room, nothing else adds any. *)
Theorem idle_registry_stays_within_MaxIdle poolConfig w c0 w0 gs s :
  NewPool poolConfig w = NewPoolOk c0 w0 ->
  steps (mkSystem c0 w0 gs) s ->
  Z.of_nat (length (buf (idleQueue (pool s)))) <= MaxIdle poolConfig.
Proof.
  intros HN Hsteps.
  pose proof (NewPool_settings _ _ _ _ HN) as [Hs Hb].
  pose proof (steps_settings _ _ Hsteps) as Hs'. simpl in Hs'.
  rewrite Hs in Hs'. unfold settings in Hs'.
  injection Hs' as _ _ _ _ _ Hcap _ _ _.
  rewrite <- Hcap.
  apply (steps_idle_within_cap _ _ Hsteps). exact Hb.
Qed.

(** [idle_registry_stays_within_MaxIdle] after the run [Ex.in_and_out] on a
    pool with MaxIdle 1, in which a third connection is put back while the
    registry is full. *)
Lemma idle_registry_stays_within_MaxIdle_witness :
  exists c0 w0 s,
    NewPool (mkConfig 1 3 1 (Some Ex.dial) (Some Ex.hang_up) 10 50 1) Ex.boot
      = NewPoolOk c0 w0 /\
    execs Ex.in_and_out (mkSystem c0 w0 [GetCall]) = Some s /\
    length (buf (idleQueue (pool s))) = 1%nat /\
    Z.of_nat (length (buf (idleQueue (pool s)))) <= 1.
Proof.
  destruct (NewPool (mkConfig 1 3 1 (Some Ex.dial) (Some Ex.hang_up) 10 50 1) Ex.boot)
    as [c0 w0| | |] eqn:HN; try discriminate HN.
  destruct (execs Ex.in_and_out (mkSystem c0 w0 [GetCall])) as [s|] eqn:HE.
  2:{ vm_compute in HN. injection HN as <- <-. vm_compute in HE. discriminate HE. }
  pose proof (idle_registry_stays_within_MaxIdle _ Ex.boot c0 w0 [GetCall] s HN
                (execs_steps _ _ _ HE)) as Hle.
  exists c0, w0, s. split; [reflexivity|]. split; [exact HE|].
  split; [|exact Hle].
  vm_compute in HN. injection HN as <- <-. vm_compute in HE.
  injection HE as <-. reflexivity.
Defined.

(** ** Hand-off channels *)

(** A step that makes no goroutine wait, takes requests only from the head
    of the queue and unmakes no channel keeps the channels private. *)
Lemma channels_private_mono s s' :
  (exists dropped,
     buf (reqQueue (pool s)) = dropped ++ buf (reqQueue (pool s'))) ->
  (next_chan (world s) <= next_chan (world s'))%nat ->
  (forall j r tk, threads s' !! j = Some (GetWait r tk) ->
                  threads s !! j = Some (GetWait r tk)) ->
  channels_private s -> channels_private s'.
Proof.
  intros [dropped Hq] Hn Hth (Hnd & Hlt & Hw & Hown).
  rewrite Hq in Hnd, Hlt. rewrite map_app in Hnd.
  apply NoDup_app in Hnd as (_ & _ & Hnd).
  apply Forall_app in Hlt as [_ Hlt].
  split; [exact Hnd|]. split.
  { eapply Forall_impl; [exact Hlt|]. simpl. intros r Hr. lia. }
  split.
  { intros j r tk Hj. apply Hth in Hj. apply Hw in Hj. lia. }
  intros j k rj rk tj tk Hj Hk. apply Hth in Hj. apply Hth in Hk.
  exact (Hown j k rj rk tj tk Hj Hk).
Qed.

Lemma step_channels_private s s' :
  step s s' -> channels_private s -> channels_private s'.
Proof.
  intros Hstep Hcp.
  destruct Hstep as [s i s' Hrun|s j s' Ht|s i j s' Hh|s d Hd|s g Hg].
  - unfold run in Hrun.
    destruct (threads s !! i) as [[| | |conn| | |]|] eqn:Hi; try discriminate;
      injection Hrun as <-.
    + pose proof (Get_loop_reqQueue (buf (idleQueue (pool s))) (pool s) (world s))
        as HQ.
      pose proof (Get_chan (pool s) (world s)) as HC. unfold Get in *.
      destruct (Get_loop _ _ _) as [v e c w|req tk c w|].
      * apply channels_private_mono with s; [| | |exact Hcp]; simpl.
        -- exists []. rewrite HQ. reflexivity.
        -- lia.
        -- intros j r tk Hj.
           apply lookup_insert_cases in Hj as [[_ ?]|[_ Hj]]; [discriminate|exact Hj].
      * destruct HQ as [_ HQ]. destruct HC as [Hid HC].
        destruct Hcp as (Hnd & Hlt & Hw & Hown).
        split; [|split; [|split]]; simpl.
        -- rewrite HQ, map_app. apply NoDup_app. split; [exact Hnd|].
           split; [|apply NoDup_singleton].
           intros x Hx Hx'. apply list_elem_of_singleton in Hx'. subst x.
           apply list_elem_of_fmap in Hx as (r & Hr & Hin).
           rewrite Forall_forall in Hlt. apply Hlt in Hin. simpl in Hr. lia.
        -- rewrite HQ, HC. apply Forall_app. split.
           ++ eapply Forall_impl; [exact Hlt|]. simpl. intros r Hr. lia.
           ++ constructor; [lia|constructor].
        -- intros j r tk' Hj. rewrite HC.
           apply lookup_insert_cases in Hj as [[_ Heq]|[_ Hj]].
           ++ injection Heq as -> ->. lia.
           ++ apply Hw in Hj. lia.
        -- intros j k rj rk tj tk' Hj Hk Heq.
           apply lookup_insert_cases in Hj as [[-> Hj]|[Hji Hj]];
             apply lookup_insert_cases in Hk as [[-> Hk]|[Hki Hk]].
           ++ reflexivity.
           ++ injection Hj as -> ->. apply Hw in Hk. lia.
           ++ injection Hk as -> ->. apply Hw in Hj. lia.
           ++ exact (Hown j k rj rk tj tk' Hj Hk Heq).
      * apply channels_private_mono with s; [| | |exact Hcp]; simpl.
        -- exists []. reflexivity.
        -- lia.
        -- intros j r tk Hj.
           apply lookup_insert_cases in Hj as [[_ ?]|[_ Hj]]; [discriminate|exact Hj].
    + pose proof (Put_chan (pool s) (world s) conn) as HC.
      assert (HQ : match Put (pool s) (world s) conn with
                   | PutReturn _ c' _ | PutPark _ _ c' _ =>
                       exists dropped,
                         buf (reqQueue (pool s)) = dropped ++ buf (reqQueue c')
                   | PutPanic => True
                   end).
      { unfold Put. destruct (is_nil conn); [exists []; reflexivity|].
        pose proof (Put_try_touches (buf (reqQueue (pool s))) (pool s) (world s)
                      conn eq_refl) as HP.
        destruct (Put_try _ _ _ _); try exact I; apply HP. }
      destruct (Put _ _ _) as [e c w|req v c w|];
        (apply channels_private_mono with s; [| | |exact Hcp]; simpl;
         [first [exact HQ|exists []; reflexivity]
         |lia
         |intros j r tk Hj;
          apply lookup_insert_cases in Hj as [[_ ?]|[_ Hj]];
          [discriminate|exact Hj]]).
  - unfold timeout in Ht.
    destruct (threads s !! j) as [[|r tk| | | | |]|]; try discriminate.
    destruct (_ && _); [|discriminate]. injection Ht as <-.
    apply channels_private_mono with s; [| | |exact Hcp]; simpl.
    + exists []. reflexivity.
    + lia.
    + intros j' r' tk' Hj.
      apply lookup_insert_cases in Hj as [[_ ?]|[_ Hj]]; [discriminate|exact Hj].
  - unfold handoff in Hh.
    destruct (threads s !! i) as [[| | | |r v| |]|]; try discriminate.
    destruct (threads s !! j) as [[|r' tk| | | | |]|]; try discriminate.
    destruct (_ && _); [|discriminate]. injection Hh as <-.
    apply channels_private_mono with s; [| | |exact Hcp]; simpl.
    + exists []. reflexivity.
    + lia.
    + intros j' r'' tk' Hj.
      apply lookup_insert_cases in Hj as [[_ ?]|[_ Hj]]; [discriminate|].
      apply lookup_insert_cases in Hj as [[_ ?]|[_ Hj]]; [discriminate|exact Hj].
  - apply channels_private_mono with s; [| | |exact Hcp]; simpl.
    + exists []. reflexivity.
    + lia.
    + auto.
  - apply channels_private_mono with s; [| | |exact Hcp]; simpl.
    + exists []. reflexivity.
    + lia.
    + intros j r tk Hj.
      apply lookup_app_Some in Hj as [Hj|[_ Hj]]; [exact Hj|].
      apply list_lookup_singleton_Some in Hj as [_ ->]. discriminate Hg.
Qed.

Lemma steps_channels_private s s' :
  steps s s' -> channels_private s -> channels_private s'.
Proof.
  intros Hsteps. induction Hsteps as [s|s s1 s' Hstep _ IH]; intros H0.
  - exact H0.
  - apply IH. eapply step_channels_private; eassumption.
Qed.

Lemma NewPool_reqQueue poolConfig w c w' :
  NewPool poolConfig w = NewPoolOk c w' -> buf (reqQueue c) = [].
Proof.
  unfold NewPool.
  destruct (negb _); [discriminate|].
  destruct (Factory poolConfig); [|discriminate].
  destruct (CloseF poolConfig); [|discriminate].
  destruct (_ || _); [discriminate|].
  intros HN. apply warm_up_reqQueue in HN. rewrite HN. reflexivity.
Qed.

(** X14.  In every state that a program of calls reaches from a pool made
    by NewPool, the requests in the wait queue name hand-off channels that
    are all different, and no two waiting Gets wait on the same channel: a
    connection sent by Put to one request can reach one caller only. *)
Theorem hand_off_channels_are_private poolConfig w c0 w0 gs s :
  NewPool poolConfig w = NewPoolOk c0 w0 ->
  Forall (fun g => is_call g = true) gs ->
  steps (mkSystem c0 w0 gs) s ->
  NoDup (map req_idleConn (buf (reqQueue (pool s)))) /\
  (forall j k rj rk tj tk,
     threads s !! j = Some (GetWait rj tj) ->
     threads s !! k = Some (GetWait rk tk) ->
     req_idleConn rj = req_idleConn rk -> j = k).
Proof.
  intros HN Hgs Hsteps.
  assert (H0 : channels_private (mkSystem c0 w0 gs)).
  { assert (Hno : forall j r tk, gs !! j = Some (GetWait r tk) -> False).
    { intros j r tk Hj. rewrite Forall_forall in Hgs.
      apply list_elem_of_lookup_2 in Hj. apply Hgs in Hj. discriminate Hj. }
    unfold channels_private. simpl.
    rewrite (NewPool_reqQueue _ _ _ _ HN). simpl.
    split; [apply NoDup_nil_2|]. split; [constructor|].
    split; [intros j r tk Hj; destruct (Hno j r tk Hj)|].
    intros j k rj rk tj tk Hj. destruct (Hno j rj tj Hj). }
  destruct (steps_channels_private _ _ Hsteps H0) as (Hnd & _ & _ & Hown).
  split; assumption.
Qed.

(** [hand_off_channels_are_private] after two refused Gets on a pool that
    admits nobody: the two requests wait on channels 0 and 1. *)
Lemma hand_off_channels_are_private_witness :
  exists c0 w0 s,
    NewPool Ex.no_room Ex.boot = NewPoolOk c0 w0 /\
    execs [MRun 0; MRun 1] (mkSystem c0 w0 [GetCall; GetCall]) = Some s /\
    map req_idleConn (buf (reqQueue (pool s))) = [0%nat; 1%nat] /\
    NoDup (map req_idleConn (buf (reqQueue (pool s)))) /\
    threads s = [GetWait (mkConnReq false 0) (mkTicker 0 50);
                 GetWait (mkConnReq false 1) (mkTicker 0 50)].
Proof.
  destruct (NewPool Ex.no_room Ex.boot) as [c0 w0| | |] eqn:HN;
    try discriminate HN.
  destruct (execs [MRun 0; MRun 1] (mkSystem c0 w0 [GetCall; GetCall]))
    as [s|] eqn:HE.
  2:{ vm_compute in HN. injection HN as <- <-. vm_compute in HE. discriminate HE. }
  destruct (hand_off_channels_are_private Ex.no_room Ex.boot c0 w0
              [GetCall; GetCall] s HN) as [Hnd _].
  { repeat constructor. }
  { apply execs_steps with [MRun 0; MRun 1]. exact HE. }
  exists c0, w0, s. split; [reflexivity|]. split; [exact HE|].
  vm_compute in HN. injection HN as <- <-. vm_compute in HE. injection HE as <-.
  split; [reflexivity|]. split; [exact Hnd|reflexivity].
Defined.

(** ** How a wait ends *)

(** X15.  A Get that waits (lines 115-126) leaves the wait in two ways
    only, and in neither while it is still held up in its send into the
    wait queue: a Put that holds its request sends it a connection, and the
    Get returns that connection with no error while the Put returns nil; or
    its ticker has run for the whole of WaitTimeout, and it returns nil and
    the time-out error.  In both cases the pool is left as it is: a Get that
    times out does not take its request out of the wait queue. *)
Theorem waiting_Get_ends_in_two_ways s s' j req tk :
  step s s' ->
  threads s !! j = Some (GetWait req tk) ->
  threads s' !! j = Some (GetWait req tk) \/
  (in_send (reqQueue (pool s)) (req_idleConn req) = false /\
   pool s' = pool s /\ world s' = world s /\
   ((exists i r conn,
       threads s !! i = Some (PutSend r conn) /\
       req_idleConn r = req_idleConn req /\
       threads s' !! i = Some (PutDone None) /\
       threads s' !! j = Some (GetDone conn None)) \/
    (started tk + period tk <= clock (world s) /\
     threads s' !! j = Some (GetDone Nil (Some GetConnectionTimeout))))).
Proof.
  intros Hstep Hj. pose proof (lookup_lt_Some _ _ _ Hj) as Hlj.
  destruct Hstep as [s k s' Hrun|s k s' Ht|s i k s' Hh|s d Hd|s g Hg].
  - left. destruct (decide (k = j)) as [->|Hne].
    { unfold run in Hrun. rewrite Hj in Hrun. discriminate. }
    unfold run in Hrun.
    destruct (threads s !! k) as [[| | |v| | |]|]; try discriminate;
      injection Hrun as <-.
    + destruct (Get _ _); simpl; rewrite list_lookup_insert_ne by exact Hne;
        exact Hj.
    + destruct (Put _ _ _); simpl; rewrite list_lookup_insert_ne by exact Hne;
        exact Hj.
  - unfold timeout in Ht.
    destruct (decide (k = j)) as [->|Hne].
    + right. rewrite Hj in Ht.
      destruct (fired tk (clock (world s))) eqn:Hf; [|discriminate].
      destruct (in_send _ _) eqn:Hin; [discriminate|]. injection Ht as <-.
      simpl. split; [reflexivity|]. split; [reflexivity|]. split; [reflexivity|].
      right. split.
      * unfold fired in Hf. apply Z.leb_le in Hf. exact Hf.
      * apply list_lookup_insert_eq. exact Hlj.
    + left.
      destruct (threads s !! k) as [[|r tk0| | | | |]|]; try discriminate.
      destruct (_ && _); [|discriminate]. injection Ht as <-. simpl.
      rewrite list_lookup_insert_ne by exact Hne. exact Hj.
  - unfold handoff in Hh.
    destruct (threads s !! i) as [[| | | |r conn| |]|] eqn:Hi; try discriminate.
    destruct (threads s !! k) as [[|r' tk0| | | | |]|] eqn:Hk; try discriminate.
    destruct (Nat.eqb_spec (req_idleConn r) (req_idleConn r')) as [Heq|];
      [|discriminate].
    destruct (in_send _ _) eqn:Hin; [discriminate|]. injection Hh as <-.
    assert (Hij : i <> j) by (intros ->; rewrite Hj in Hi; discriminate Hi).
    pose proof (lookup_lt_Some _ _ _ Hi) as Hli.
    destruct (decide (k = j)) as [->|Hne].
    + right. rewrite Hj in Hk. injection Hk as <- <-.
      split; [exact Hin|]. split; [reflexivity|]. split; [reflexivity|].
      left. exists i, r, conn. simpl.
      split; [exact Hi|]. split; [exact Heq|]. split.
      * apply list_lookup_insert_eq. rewrite length_insert. exact Hli.
      * rewrite list_lookup_insert_ne by exact Hij.
        apply list_lookup_insert_eq. exact Hlj.
    + left. simpl. rewrite !list_lookup_insert_ne by assumption. exact Hj.
  - left. exact Hj.
  - left. simpl. apply lookup_app_l_Some. exact Hj.
Qed.

(** [waiting_Get_ends_in_two_ways] at the two ends: a hand-off from a Put
    that holds the request, and a time-out when the 50 ns are over. *)
Lemma waiting_Get_ends_in_two_ways_witness :
  (let s := mkSystem (Ex.pool_of [] 1 Ex.dial 0 50 2 1) (mkWorld 0 1 [] 1)
              [GetDone (Res 0) None; GetWait (mkConnReq false 0) (mkTicker 0 50);
               PutSend (mkConnReq false 0) (Res 0)] in
   exists s', handoff s 2 1 = Some s' /\
              threads s' !! 1%nat = Some (GetDone (Res 0) None) /\
              threads s' !! 2%nat = Some (PutDone None) /\ pool s' = pool s) /\
  (let s := mkSystem (Ex.pool_of [] 1 Ex.dial 0 50 2 1) (mkWorld 50 1 [] 1)
              [GetDone (Res 0) None; GetWait (mkConnReq false 0) (mkTicker 0 50)] in
   exists s', timeout s 1 = Some s' /\
              threads s' !! 1%nat = Some (GetDone Nil (Some GetConnectionTimeout)) /\
              started (mkTicker 0 50) + period (mkTicker 0 50) <= clock (world s) /\
              pool s' = pool s).
Proof.
  split; intros s.
  - destruct (handoff s 2 1) as [s'|] eqn:Hh; [|discriminate Hh].
    destruct (waiting_Get_ends_in_two_ways s s' 1%nat (mkConnReq false 0)
                (mkTicker 0 50) (step_handoff s 2%nat 1%nat s' Hh) eq_refl)
      as [Hstay|(_ & Hp & _ & [(i & r & conn & _ & _ & _ & Hd)|(_ & Hd)])].
    + vm_compute in Hh. injection Hh as <-. discriminate Hstay.
    + exists s'. split; [reflexivity|].
      vm_compute in Hh. injection Hh as <-.
      repeat split.
    + vm_compute in Hh. injection Hh as <-. discriminate Hd.
  - destruct (timeout s 1) as [s'|] eqn:Ht; [|discriminate Ht].
    destruct (waiting_Get_ends_in_two_ways s s' 1%nat (mkConnReq false 0)
                (mkTicker 0 50) (step_timeout s 1%nat s' Ht) eq_refl)
      as [Hstay|(_ & Hp & _ & [(i & r & conn & _ & _ & _ & Hd)|(Hf & Hd)])].
    + vm_compute in Ht. injection Ht as <-. discriminate Hstay.
    + vm_compute in Ht. injection Ht as <-. discriminate Hd.
    + exists s'. split; [reflexivity|]. split; [exact Hd|].
      split; [exact Hf|exact Hp].
Defined.

(** [flag_never_reaches_the_queue] after two refused Gets of which the
    first has timed out: its request is still in the queue, and not marked. *)
Lemma flag_never_reaches_the_queue_witness :
  exists c0 w0 s,
    NewPool Ex.no_room Ex.boot = NewPoolOk c0 w0 /\
    execs [MRun 0; MRun 1; MTick 50; MTimeout 0]
          (mkSystem c0 w0 [GetCall; GetCall]) = Some s /\
    threads s !! 0%nat = Some (GetDone Nil (Some GetConnectionTimeout)) /\
    buf (reqQueue (pool s)) = [mkConnReq false 0; mkConnReq false 1] /\
    never_flagged s.
Proof.
  destruct (NewPool Ex.no_room Ex.boot) as [c0 w0| | |] eqn:HN;
    try discriminate HN.
  destruct (execs [MRun 0; MRun 1; MTick 50; MTimeout 0]
              (mkSystem c0 w0 [GetCall; GetCall])) as [s|] eqn:HE.
  2:{ vm_compute in HN. injection HN as <- <-. vm_compute in HE. discriminate HE. }
  pose proof (flag_never_reaches_the_queue Ex.no_room Ex.boot c0 w0
                [GetCall; GetCall] s HN (execs_steps _ _ _ HE)) as Hnf.
  exists c0, w0, s. split; [reflexivity|]. split; [exact HE|].
  split; [|split; [|exact Hnf]];
    vm_compute in HN; injection HN as <- <-; vm_compute in HE;
    injection HE as <-; reflexivity.
Defined.

(** ** Get: what it returns *)



(** ** The counter stays within MaxCap *)

Lemma Get_loop_counter q : forall c w,
  openingConn c <= maxActiveConn c ->
  openingConn c < 2 ^ 31 ->
  - 2 ^ 31 + Z.of_nat (length q) <= openingConn c ->
  match Get_loop q c w with
  | GetReturn _ _ c' _ | GetPark _ _ c' _ =>
      openingConn c' <= maxActiveConn c /\ openingConn c' <= openingConn c + 1
  | GetPanic => True
  end.
Proof.
  induction q as [|idleC q IH]; intros c w Hle Hhi Hlo; simpl.
  - simpl in Hlo. destruct (is_closed (idleQueue c)); [lia|].
    unfold Get_default.
    destruct (Z.ltb_spec (AddInt32 (openingConn c) 1) (maxActiveConn c)) as [Hlt|Hge].
    + destruct (factory c) as [f|]; [|exact I].
      destruct (f _). simpl. split; [lia|].
      unfold AddInt32, wrap32.
      pose proof (Z.mod_pos_bound (openingConn c + 1 + 2 ^ 31) (2 ^ 32) ltac:(lia)).
      destruct (Z.eq_dec (openingConn c) (2 ^ 31 - 1)) as [->|Hne].
      * change ((2 ^ 31 - 1 + 1 + 2 ^ 31) mod 2 ^ 32) with 0. lia.
      * rewrite Z.mod_small by lia. lia.
    + destruct (NewTicker _ _); [|exact I].
      destruct (is_closed (reqQueue c)); [exact I|]. simpl.
      rewrite AddInt32_undo, wrap32_small by (unfold int32; lia). lia.
  - simpl length in Hlo.
    destruct (_ && _); [|simpl; lia].
    unfold Close. simpl.
    destruct (close c) as [cl|]; simpl.
    + match goal with |- context [Get_loop q ?c' ?w'] =>
        specialize (IH c' w') end.
      simpl in IH. unfold AddInt32 in IH.
      rewrite wrap32_small in IH by (unfold int32; lia).
      specialize (IH ltac:(lia) ltac:(lia) ltac:(lia)).
      unfold AddInt32. rewrite wrap32_small by (unfold int32; lia).
      destruct (Get_loop q _ _); try exact I; lia.
    + match goal with |- context [Get_loop q ?c' ?w'] =>
        specialize (IH c' w') end.
      simpl in IH. specialize (IH ltac:(lia) ltac:(lia) ltac:(lia)).
      destruct (Get_loop q _ _); try exact I; lia.
Qed.

Lemma Put_try_counter q : forall c w conn,
  - 2 ^ 31 + 2 <= openingConn c -> openingConn c < 2 ^ 31 ->
  match Put_try q c w conn with
  | PutReturn _ c' _ | PutPark _ _ c' _ =>
      openingConn c - 2 <= openingConn c' <= openingConn c
  | PutPanic => True
  end.
Proof.
  induction q as [|r q IH]; intros c w conn Hlo Hhi; simpl.
  - destruct (is_closed (reqQueue c)); [lia|].
    unfold Put_default.
    destruct (is_closed (idleQueue c)); [exact I|].
    destruct (has_room _); [simpl; lia|].
    unfold Close. simpl.
    destruct (close c); simpl; unfold AddInt32;
      rewrite (wrap32_small (openingConn c + -1)) by (unfold int32; lia);
      rewrite ?wrap32_small by (unfold int32; lia); lia.
  - destruct (abandon r); [|simpl; lia].
    apply (IH (set_reqQueue c (with_buf (reqQueue c) q)) w conn); assumption.
Qed.

(** X18.  No step takes the counter above the maximum: if the counter is
    at most MaxCap before a step (and is an int32 far enough from its lower
    end for the decrements of the step not to wrap round), it is at most
    MaxCap after it.  A step raises the counter by one at most. *)
Theorem counter_stays_within_MaxCap s s' :
  step s s' ->
  openingConn (pool s) <= maxActiveConn (pool s) ->
  openingConn (pool s) < 2 ^ 31 ->
  - 2 ^ 31 + Z.of_nat (length (buf (idleQueue (pool s)))) + 2
    <= openingConn (pool s) ->
  openingConn (pool s') <= maxActiveConn (pool s') /\
  openingConn (pool s') <= openingConn (pool s) + 1.
Proof.
  intros Hstep Hle Hhi Hlo.
  pose proof (step_settings s s' Hstep) as Hs. unfold settings in Hs.
  injection Hs as _ _ _ _ Hmax _ _ _ _. rewrite Hmax. clear Hmax.
  destruct Hstep as [s i s' Hrun|s j s' Ht|s i j s' Hh|s d Hd|s g Hg];
    try (simpl; lia).
  - unfold run in Hrun.
    destruct (threads s !! i) as [[| | |conn| | |]|]; try discriminate;
      injection Hrun as <-.
    + pose proof (Get_loop_counter (buf (idleQueue (pool s))) (pool s) (world s)
                    Hle Hhi ltac:(lia)) as HG. unfold Get.
      destruct (Get_loop _ _ _); simpl; first [exact HG|lia].
    + unfold Put. destruct (is_nil conn); [simpl; lia|].
      pose proof (Put_try_counter (buf (reqQueue (pool s))) (pool s) (world s) conn
                    ltac:(lia) Hhi) as HP.
      destruct (Put_try _ _ _ _); simpl; lia.
  - unfold timeout in Ht.
    destruct (threads s !! j) as [[|r tk| | | | |]|]; try discriminate.
    destruct (_ && _); [|discriminate]. injection Ht as <-. simpl. lia.
  - unfold handoff in Hh.
    destruct (threads s !! i) as [[| | | |r v| |]|]; try discriminate.
    destruct (threads s !! j) as [[|r' tk| | | | |]|]; try discriminate.
    destruct (_ && _); [|discriminate]. injection Hh as <-. simpl. lia.
Qed.

(** [counter_stays_within_MaxCap] on the most that a pool with MaxCap 3
    admits: with nothing idle and the counter at 1, a Get makes a connection
    and leaves the counter at 2. *)
Lemma counter_stays_within_MaxCap_witness :
  let s := mkSystem (Ex.pool_of [] 2 Ex.dial 0 50 3 1) (mkWorld 0 1 [] 0) [GetCall] in
  exists s',
    run s 0 = Some s' /\
    threads s' = [GetDone (Res 1) None] /\
    openingConn (pool s') = 2 /\
    openingConn (pool s') <= maxActiveConn (pool s').
Proof.
  intros s.
  destruct (run s 0) as [s'|] eqn:Hrun; [|discriminate Hrun].
  destruct (counter_stays_within_MaxCap s s' (step_run s 0%nat s' Hrun))
    as [Hle _].
  - simpl. lia.
  - reflexivity.
  - vm_compute. discriminate.
  - exists s'. split; [reflexivity|].
    vm_compute in Hrun. injection Hrun as <-.
    split; [reflexivity|]. split; [reflexivity|exact Hle].
Defined.
